(** * Giffer: a shallow embedding of the deck viewer and the query controller

    The development follows [src/justprogram/src/Giffer.jsx] and
    [src/justprogram/src/App.jsx].  JavaScript values are an inductive type,
    the six [useState] cells of [Giffer] are a record, and the effect that
    fetches a deck is an event-driven transition function: mounting or
    changing the [apiKey] prop, unmounting, the settlement of the two awaited
    promises ([fetch] and [res.json]) and a click on a vote button are the
    events. *)

From Stdlib Require Import List String ZArith Lia Bool Arith.
From Stdlib Require Import Permutation DecimalString.
Import ListNotations.

Local Open Scope string_scope.
Local Open Scope list_scope.

Set Warnings "-register-all".

(** ** JavaScript values *)

(** Values as [JSON.parse] builds them, plus [undefined], which a member
    access on a missing key yields.  Numbers only matter here through their
    truthiness and their decimal rendering, so they are integers. *)
Inductive JSValue : Type :=
| JUndefined
| JNull
| JBool (b : bool)
| JNum (n : Z)
| JStr (s : string)
| JArr (items : list JSValue)
| JObj (props : list (string * JSValue)).

(** An [Error] object: what [fetch], [res.json], [new Error(...)] and the
    engine itself throw. *)
Record JSError : Type := mkError { err_name : string; err_message : string }.

(** Outcome of an expression that may throw, or of an awaited promise. *)
Inductive result (A : Type) : Type :=
| Ok (a : A)
| Throw (e : JSError).
Arguments Ok {A} a.
Arguments Throw {A} e.

Definition bind {A B : Type} (r : result A) (k : A -> result B) : result B :=
  match r with
  | Ok a => k a
  | Throw e => Throw e
  end.

Notation "x <- r ;; k" := (bind r (fun x => k))
  (at level 61, r at next level, right associativity).

Module JS.

(** [!!v] *)
Definition truthy (v : JSValue) : bool :=
  match v with
  | JUndefined | JNull => false
  | JBool b => b
  | JNum n => negb (Z.eqb n 0)
  | JStr s => negb (String.eqb s "")
  | JArr _ | JObj _ => true
  end.

(** [typeof v] *)
Definition typeof (v : JSValue) : string :=
  match v with
  | JUndefined => "undefined"
  | JBool _ => "boolean"
  | JNum _ => "number"
  | JStr _ => "string"
  | JNull | JArr _ | JObj _ => "object"
  end.

Definition nullish (v : JSValue) : bool :=
  match v with
  | JUndefined | JNull => true
  | _ => false
  end.

(** Own property of a parsed object; a missing key reads [undefined].  A
    parsed object has each key once, so the first binding is the one read. *)
Fixpoint lookup (k : string) (ps : list (string * JSValue)) : JSValue :=
  match ps with
  | [] => JUndefined
  | (k', v) :: rest => if String.eqb k k' then v else lookup k rest
  end.

(** Member read on a value that is neither [null] nor [undefined].  The
    keys this program reads ([data], [id], [title], [images], [url] and the
    variant names) are on no prototype, so on anything but an object they
    read [undefined]. *)
Definition read (v : JSValue) (k : string) : JSValue :=
  match v with
  | JObj ps => lookup k ps
  | _ => JUndefined
  end.

(** The [TypeError]s the engine raises.  Their wording is the engine's
    (V8's here) and no statement below depends on it. *)
Definition cannot_read (v : JSValue) (k : string) : JSError :=
  mkError "TypeError"
    ("Cannot read properties of "
       ++ (match v with JNull => "null" | _ => "undefined" end)
       ++ " (reading '" ++ k ++ "')")%string.

Definition not_a_function (what : string) : JSError :=
  mkError "TypeError" (what ++ " is not a function")%string.

(** [v.k] *)
Definition get (v : JSValue) (k : string) : result JSValue :=
  if nullish v then Throw (cannot_read v k) else Ok (read v k).

(** [v?.k] *)
Definition get_opt (v : JSValue) (k : string) : JSValue :=
  if nullish v then JUndefined else read v k.

(** [a || b], with [b] evaluated only when [a] is falsy. *)
Definition or_else (a : JSValue) (b : result JSValue) : result JSValue :=
  if truthy a then Ok a else b.

(** [v === s] for a string literal [s]: no coercion, so only that very
    string is equal to it. *)
Definition strict_eq_str (v : JSValue) (s : string) : bool :=
  match v with
  | JStr s' => String.eqb s' s
  | _ => false
  end.

(** [Error.prototype.toString] *)
Definition error_to_string (e : JSError) : string :=
  if String.eqb (err_name e) "" then err_message e
  else if String.eqb (err_message e) "" then err_name e
  else (err_name e ++ ": " ++ err_message e)%string.

(** Decimal rendering of a non-negative integer in a template literal. *)
Definition decimal (n : nat) : string :=
  NilZero.string_of_uint (Nat.to_uint n).

End JS.

(** ** The deck viewer, [Giffer.jsx] *)

(** The object literal built by the mapper.  [oid] is the identity of the
    freshly allocated object: two literals are never the same object even
    when all their fields agree. *)
Record GifItem : Type := mkGif {
  oid : nat;
  id : JSValue;
  title : JSValue;
  preview : JSValue;
  url : JSValue
}.

(** [d.images?.<name>?.url] *)
Definition variant_url (d : JSValue) (name : string) : result JSValue :=
  images <- JS.get d "images" ;;
  Ok (JS.get_opt (JS.get_opt images name) "url").

(** The arrow function passed to [.map], allocating object [o]. *)
Definition mapper (o : nat) (d : JSValue) : result GifItem :=
  i <- JS.get d "id" ;;
  t0 <- JS.get d "title" ;;
  t <- JS.or_else t0 (Ok (JStr "Untitled")) ;;
  m <- variant_url d "downsized_medium" ;;
  p <- JS.or_else m
         (og <- variant_url d "original" ;;
          JS.or_else og (variant_url d "downsized")) ;;
  u <- JS.get d "url" ;;
  Ok (mkGif o i t p u).

(** [Array.prototype.map] over a parsed array, objects allocated from [o]. *)
Fixpoint map_records (o : nat) (ds : list JSValue) : result (list GifItem) :=
  match ds with
  | [] => Ok []
  | d :: rest =>
      g <- mapper o d ;;
      gs <- map_records (S o) rest ;;
      Ok (g :: gs)
  end.

(** [(json?.data || []).map(...)] *)
Definition normalize (o : nat) (json : JSValue) : result (list GifItem) :=
  let data := JS.get_opt json "data" in
  match (if JS.truthy data then data else JArr []) with
  | JArr ds => map_records o ds
  | _ => Throw (JS.not_a_function "(json?.data || []).map")
  end.

(** The six [useState] cells. *)
Record State : Type := mkState {
  gifs : list GifItem;
  idx : nat;
  liked : list GifItem;
  disliked : list GifItem;
  loading : bool;
  error : string
}.

Definition setGifs (v : list GifItem) (s : State) : State :=
  mkState v (idx s) (liked s) (disliked s) (loading s) (error s).
Definition setIdx (f : nat -> nat) (s : State) : State :=
  mkState (gifs s) (f (idx s)) (liked s) (disliked s) (loading s) (error s).
Definition setLiked (f : list GifItem -> list GifItem) (s : State) : State :=
  mkState (gifs s) (idx s) (f (liked s)) (disliked s) (loading s) (error s).
Definition setDisliked (f : list GifItem -> list GifItem) (s : State) : State :=
  mkState (gifs s) (idx s) (liked s) (f (disliked s)) (loading s) (error s).
Definition setLoading (v : bool) (s : State) : State :=
  mkState (gifs s) (idx s) (liked s) (disliked s) v (error s).
Definition setError (v : string) (s : State) : State :=
  mkState (gifs s) (idx s) (liked s) (disliked s) (loading s) v.

Definition initial_state : State := mkState [] 0 [] [] false "".

(** Where one call of [fetchDeck] is suspended. *)
Inductive Phase : Type :=
| AwaitFetch          (* at [await fetch(apiKey)] *)
| AwaitJson           (* at [await res.json()] *)
| Finished.

(** One run of the effect that got past the validation: the endpoint it
    closed over, its [ignore] flag and the point its [fetchDeck] has
    reached. *)
Record Request : Type := mkRequest {
  endpoint : JSValue;
  ignore : bool;
  phase : Phase
}.

(** The mounted component: its state, every effect closure created so far
    (a request is named by its position), the cleanup function React holds
    for the last effect run (the request whose [ignore] it sets), and the
    next free object identity. *)
Record World : Type := mkWorld {
  st : State;
  requests : list Request;
  cleanup : option nat;
  next_oid : nat
}.

Definition initial_world : World := mkWorld initial_state [] None 0.

(** What [fetch] resolves to.  [res.ok] is, by the Fetch standard, a status
    in the range 200 to 299. *)
Record Response : Type := mkResponse { status : nat }.

Definition ok (res : Response) : bool :=
  ((200 <=? status res) && (status res <=? 299))%nat.

Inductive Event : Type :=
| SetEndpoint (apiKey : JSValue)                 (* mount, or [apiKey] changed *)
| Unmount
| FetchSettled (rid : nat) (r : result Response) (* [fetch(apiKey)] settled *)
| JsonSettled (rid : nat) (r : result JSValue)   (* [res.json()] settled *)
| Vote (kind : JSValue)          (* a click, handled by the render on display *)
| Votes (kinds : list JSValue).  (* calls of one render's [handleVote], in a row *)

Definition update_request (rid : nat) (f : Request -> Request)
    (rs : list Request) : list Request :=
  match nth_error rs rid with
  | Some r => firstn rid rs ++ f r :: skipn (S rid) rs
  | None => rs
  end.

Definition set_ignore (r : Request) : Request :=
  mkRequest (endpoint r) true (phase r).
Definition set_phase (p : Phase) (r : Request) : Request :=
  mkRequest (endpoint r) (ignore r) p.

(** The function the effect returned: [ignore = true]. *)
Definition run_cleanup (w : World) : World :=
  match cleanup w with
  | Some rid =>
      mkWorld (st w) (update_request rid set_ignore (requests w)) None
              (next_oid w)
  | None => w
  end.

Definition invalid_message : string :=
  "Invalid endpoint: Pass a full Giphy URL as the `apiKey` prop.".

(** [!apiKey || typeof apiKey !== "string"] *)
Definition invalid_endpoint (apiKey : JSValue) : bool :=
  negb (JS.truthy apiKey) || negb (String.eqb (JS.typeof apiKey) "string").

(** The effect body, run with the previous cleanup already done. *)
Definition run_effect (apiKey : JSValue) (w : World) : World :=
  if invalid_endpoint apiKey then
    mkWorld (setError invalid_message (st w)) (requests w) None (next_oid w)
  else
    mkWorld (setError "" (setLoading true (st w)))
            (requests w ++ [mkRequest apiKey false AwaitFetch])
            (Some (List.length (requests w)))
            (next_oid w).

(** [String(e?.message || e)] for a thrown [Error]. *)
Definition catch_text (e : JSError) : string :=
  if negb (String.eqb (err_message e) "") then err_message e
  else JS.error_to_string e.

(** The [catch] and [finally] blocks of [fetchDeck] for request [r]. *)
Definition catch_finally (r : Request) (e : JSError) (s : State) : State :=
  let s1 := if ignore r then s else setError (catch_text e) s in
  if ignore r then s1 else setLoading false s1.

Definition finish (rid : nat) (w : World) (s : State) (o : nat) : World :=
  mkWorld s (update_request rid (set_phase Finished) (requests w))
          (cleanup w) o.

(** Resumption after [await fetch(apiKey)]. *)
Definition fetch_settled (rid : nat) (r : result Response) (w : World) : World :=
  match nth_error (requests w) rid with
  | Some rq =>
      match phase rq with
      | AwaitFetch =>
          match r with
          | Ok res =>
              if negb (ok res) then
                finish rid w
                  (catch_finally rq
                     (mkError "Error" ("HTTP " ++ JS.decimal (status res)))
                     (st w))
                  (next_oid w)
              else
                mkWorld (st w)
                        (update_request rid (set_phase AwaitJson) (requests w))
                        (cleanup w) (next_oid w)
          | Throw e => finish rid w (catch_finally rq e (st w)) (next_oid w)
          end
      | _ => w
      end
  | None => w
  end.

(** The four setters of the success branch. *)
Definition install_deck (mapped : list GifItem) (s : State) : State :=
  setDisliked (fun _ => []) (setLiked (fun _ => []) (setIdx (fun _ => 0)
    (setGifs mapped s))).

(** Resumption after [await res.json()]. *)
Definition json_settled (rid : nat) (r : result JSValue) (w : World) : World :=
  match nth_error (requests w) rid with
  | Some rq =>
      match phase rq with
      | AwaitJson =>
          match r with
          | Ok json =>
              if ignore rq then finish rid w (st w) (next_oid w)
              else
                match normalize (next_oid w) json with
                | Ok mapped =>
                    finish rid w
                      (setLoading false (install_deck mapped (st w)))
                      (next_oid w + List.length mapped)
                | Throw e =>
                    finish rid w (catch_finally rq e (st w)) (next_oid w)
                end
          | Throw e => finish rid w (catch_finally rq e (st w)) (next_oid w)
          end
      | _ => w
      end
  | None => w
  end.

(** [gifs[idx]].  The deck only ever holds objects built by the mapper,
    which are truthy, so [!current] is true exactly when the pointer is past
    the end. *)
Definition current (s : State) : option GifItem := nth_error (gifs s) (idx s).

(** [handleVote] as one render defines it.  [cur] is the [current] that
    render bound (line 80), and the handler closes over it: the guard and
    the item appended are the render's, whatever the state has become when
    the updaters run; only [prev] and [n] are read then. *)
Definition handleVote (cur : option GifItem) (kind : JSValue) (s : State)
    : State :=
  match cur with
  | None => s
  | Some c =>
      let s1 :=
        if JS.strict_eq_str kind "like"
        then setLiked (fun prev => prev ++ [c]) s
        else setDisliked (fun prev => prev ++ [c]) s in
      setIdx (fun n => n + 1) s1
  end.

(** Calls of the handler of one render, one after the other, before React
    renders again: all of them see the same [cur]. *)
Definition handleVotes (cur : option GifItem) (kinds : list JSValue)
    (s : State) : State :=
  fold_left (fun s' kind => handleVote cur kind s') kinds s.

Definition step (w : World) (ev : Event) : World :=
  match ev with
  | SetEndpoint apiKey => run_effect apiKey (run_cleanup w)
  | Unmount => run_cleanup w
  | FetchSettled rid r => fetch_settled rid r w
  | JsonSettled rid r => json_settled rid r w
  | Vote kind =>
      mkWorld (handleVote (current (st w)) kind (st w))
              (requests w) (cleanup w) (next_oid w)
  | Votes kinds =>
      mkWorld (handleVotes (current (st w)) kinds (st w))
              (requests w) (cleanup w) (next_oid w)
  end.

Definition run (w : World) (evs : list Event) : World := fold_left step evs w.

(** ** The query controller, [App.jsx] *)

Module App.

(** [query] and [limit].  [limit] starts as the number 12 and is then
    whatever [e.target.value] was, which is text. *)
Record AppState : Type := mkApp { query : string; limit : JSValue }.

Definition initial : AppState := mkApp "cool" (JNum 12).

(** The two [onChange] handlers, each given [e.target.value]. *)
Inductive Edit : Type :=
| EditQuery (value : string)
| EditLimit (value : string).

Definition onChange (a : AppState) (e : Edit) : AppState :=
  match e with
  | EditQuery v => mkApp v (limit a)
  | EditLimit v => mkApp (query a) (JStr v)
  end.

Definition edits (a : AppState) (es : list Edit) : AppState :=
  fold_left onChange es a.

(** The value of the latest edit of the result-count input, if any. *)
Fixpoint last_limit (es : list Edit) (acc : option string) : option string :=
  match es with
  | [] => acc
  | EditLimit v :: rest => last_limit rest (Some v)
  | EditQuery _ :: rest => last_limit rest acc
  end.

(** The data model's constraint on [resultLimit], an integer that is at
    least 1, read generously: a number, or text that spells a decimal
    integer. *)
Definition integer_ge_1 (v : JSValue) : bool :=
  match v with
  | JNum n => (1 <=? n)%Z
  | JStr s =>
      match NilEmpty.int_of_string s with
      | Some d => (1 <=? Z.of_int d)%Z
      | None => false
      end
  | _ => false
  end.

End App.

(** ** Sample inputs *)

Module Sample.

Definition images (variants : list (string * string)) : JSValue :=
  JObj (map (fun kv => (fst kv, JObj [("url", JStr (snd kv))])) variants).

Definition record (i t : string) (variants : list (string * string)) : JSValue :=
  JObj [("id", JStr i); ("title", JStr t);
        ("images", images variants);
        ("url", JStr ("https://giphy.com/gifs/" ++ i)%string)].

Definition cats : JSValue :=
  JObj [("data", JArr [
    record "c1" "Cat one" [("original", "o1.gif"); ("downsized_medium", "m1.gif")];
    record "c2" "" [("downsized", "d2.gif"); ("original", "o2.gif")];
    record "c3" "Cat three" [("downsized", "d3.gif")]])].

(** A record without any image variant. *)
Definition bare : JSValue :=
  JObj [("data", JArr [JObj [("id", JStr "b1"); ("title", JStr "Bare")]])].

Definition search : JSValue :=
  JStr "https://api.giphy.com/v1/gifs/search?api_key=k&q=cats&limit=3".
Definition search2 : JSValue :=
  JStr "https://api.giphy.com/v1/gifs/search?api_key=k&q=dogs&limit=3".

(** Mounted, the first deck fetched and shown. *)
Definition loaded : World :=
  run initial_world
    [SetEndpoint search; FetchSettled 0 (Ok (mkResponse 200));
     JsonSettled 0 (Ok cats)].

(** A second query typed, its request in flight. *)
Definition refetching : World := step loaded (SetEndpoint search2).

End Sample.

(** Request [rid] exists and its [ignore] flag is raised. *)
Definition stale (rid : nat) (w : World) : Prop :=
  exists r, nth_error (requests w) rid = Some r /\ ignore r = true.

(** Request [rid] is the one whose cleanup React currently holds. *)
Definition live (rid : nat) (w : World) : Prop :=
  cleanup w = Some rid /\ exists r, nth_error (requests w) rid = Some r.

(** The events that supersede the running effect: a new [apiKey], or the
    component going away. *)
Definition supersedes (ev : Event) : bool :=
  match ev with
  | SetEndpoint _ | Unmount => true
  | _ => false
  end.

(** The events that resume the [fetchDeck] of request [rid]. *)
Definition resolves (rid : nat) (ev : Event) : bool :=
  match ev with
  | FetchSettled k _ | JsonSettled k _ => Nat.eqb k rid
  | _ => false
  end.

(** ** Vocabulary of the statements *)

(** [d.images?.<name>?.url] for a record [d] that is an actual value. *)
Definition image_url (d : JSValue) (name : string) : JSValue :=
  JS.get_opt (JS.get_opt (JS.read d "images") name) "url".

(** The first truthy candidate; when none is, the last one, as [||] leaves
    it. *)
Fixpoint first_truthy (vs : list JSValue) : JSValue :=
  match vs with
  | [] => JUndefined
  | [v] => v
  | v :: rest => if JS.truthy v then v else first_truthy rest
  end.

(** What one raw record becomes. *)
Definition item_of (d : JSValue) (g : GifItem) : Prop :=
  id g = JS.read d "id" /\
  title g = (if JS.truthy (JS.read d "title") then JS.read d "title"
             else JStr "Untitled") /\
  preview g = first_truthy [image_url d "downsized_medium";
                            image_url d "original";
                            image_url d "downsized"] /\
  url g = JS.read d "url".

(** The raw records of a body: the array in its [data] field, none when the
    field is absent. *)
Definition records (json : JSValue) : list JSValue :=
  match JS.get_opt json "data" with
  | JArr ds => ds
  | _ => []
  end.

(** Bodies the mapper goes through: [data] is absent (or otherwise falsy), or
    it is an array none of whose records is [null]. *)
Definition well_shaped (json : JSValue) : bool :=
  let data := JS.get_opt json "data" in
  if JS.truthy data then
    match data with
    | JArr ds => forallb (fun d => negb (JS.nullish d)) ds
    | _ => false
    end
  else true.

(** The ways a fetch fails. *)
Inductive Failure : Type :=
| HttpFailure (res : Response)     (* [fetch] resolved, [res.ok] is false *)
| FetchThrew (e : JSError)         (* [fetch] rejected *)
| ParseThrew (e : JSError).        (* [res.json()] rejected *)

Definition is_failure (f : Failure) : bool :=
  match f with
  | HttpFailure res => negb (ok res)
  | FetchThrew _ | ParseThrew _ => true
  end.

Definition failure_phase (f : Failure) : Phase :=
  match f with
  | HttpFailure _ | FetchThrew _ => AwaitFetch
  | ParseThrew _ => AwaitJson
  end.

Definition failure_event (rid : nat) (f : Failure) : Event :=
  match f with
  | HttpFailure res => FetchSettled rid (Ok res)
  | FetchThrew e => FetchSettled rid (Throw e)
  | ParseThrew e => JsonSettled rid (Throw e)
  end.

(** The message of a failure: [HTTP <status>] for a refused response, and for
    a thrown error what [e?.message || e] reads, its message or, when that is
    empty, its string form. *)
Definition failure_message (f : Failure) : string :=
  match f with
  | HttpFailure res => ("HTTP " ++ JS.decimal (status res))%string
  | FetchThrew e | ParseThrew e =>
      if String.eqb (err_message e) "" then JS.error_to_string e
      else err_message e
  end.

(** [needle] occurs in [s]. *)
Definition contains (needle s : string) : bool :=
  match index 0 needle s with
  | Some _ => true
  | None => false
  end.


(** ** The rest of the program *)

(** *** Template literals, [App.jsx] line 12 *)

Module Template.

Definition cannot_convert : JSError :=
  mkError "TypeError" "Cannot convert object to primitive value".

Definition has_key (k : string) (ps : list (string * JSValue)) : bool :=
  existsb (fun kv => String.eqb k (fst kv)) ps.

(** [`${v}`], that is [ToString(v)].  An array is joined with commas, its
    [null] and [undefined] elements reading as empty; a parsed object reads
    [[object Object]] unless it has a key [toString] of its own, which is
    no function, and then the conversion throws. *)
Fixpoint to_string (v : JSValue) : result string :=
  match v with
  | JUndefined => Ok "undefined"
  | JNull => Ok "null"
  | JBool b => Ok (if b then "true" else "false")
  | JNum n => Ok (NilZero.string_of_int (Z.to_int n))
  | JStr s => Ok s
  | JArr xs =>
      (fix join (l : list JSValue) : result string :=
         match l with
         | [] => Ok ""
         | x :: rest =>
             s <- (if JS.nullish x then Ok "" else to_string x) ;;
             match rest with
             | [] => Ok s
             | _ => r <- join rest ;; Ok (s ++ "," ++ r)%string
             end
         end) xs
  | JObj ps =>
      if has_key "toString" ps then Throw cannot_convert
      else Ok "[object Object]"
  end.

End Template.

(** *** The endpoint, [App.jsx] lines 9 to 12 *)

Module Query.

Definition apiKey : string := "bZe4nEmDbpJVXOXR8z2mm6N35VCjaiKn".

Definition base : string :=
  ("https://api.giphy.com/v1/gifs/search?api_key=" ++ apiKey ++ "&q=")%string.

(** [GIPHY_KEY]: [query] is a string already, [limit] is converted. *)
Definition GIPHY_KEY (a : App.AppState) : result string :=
  l <- Template.to_string (App.limit a) ;;
  Ok (base ++ App.query a ++ "&limit=" ++ l)%string.

(** The value of the latest edit of the search input, if any. *)
Fixpoint last_query (es : list App.Edit) (acc : option string) : option string :=
  match es with
  | [] => acc
  | App.EditQuery v :: rest => last_query rest (Some v)
  | App.EditLimit _ :: rest => last_query rest acc
  end.

End Query.

(** *** What [Giffer] renders, [Giffer.jsx] lines 94 to 160 *)

Module View.


(** [Math.max(0, gifs.length - idx)] *)
Definition left (s : State) : Z :=
  Z.max 0 (Z.of_nat (List.length (gifs s)) - Z.of_nat (idx s)).

(** [loading && <div>Loading…</div>] *)
Definition shows_loading (s : State) : bool := loading s.

(** [error && <div>Error: {error}</div>] *)
Definition shows_error (s : State) : bool := JS.truthy (JStr (error s)).

(** [current ? <card> : ...]: the card on display. *)
Definition card (s : State) : option GifItem := current s.

(** [current ? ... : (!loading && <div>No more GIFs...</div>)] *)
Definition shows_no_more (s : State) : bool :=
  match current s with
  | Some _ => false
  | None => negb (loading s)
  end.


End View.

(** *** [App] and [Giffer] together *)

Module Page.

(** What happens to the page: an edit of one of the two inputs, a click on
    one of the two buttons, the settlement of a request. *)
Inductive PageEvent : Type :=
| Edit (e : App.Edit)
| ClickLike
| ClickDislike
| FetchDone (rid : nat) (r : result Response)
| JsonDone (rid : nat) (r : result JSValue).

Record Page : Type := mkPage { app : App.AppState; viewer : World }.

(** [<Giffer apiKey={GIPHY_KEY} />] rendered again with the new state of
    [App]: the effect of [Giffer] runs when the string differs from the one
    of the previous render, as its dependency list [[apiKey]] says.  A
    render that throws takes the tree down. *)
Definition rerender (prev : result string) (a : App.AppState) (w : World)
    : World :=
  match Query.GIPHY_KEY a with
  | Ok k =>
      match prev with
      | Ok k0 => if String.eqb k k0 then w else step w (SetEndpoint (JStr k))
      | Throw _ => w
      end
  | Throw _ => step w Unmount
  end.

(** The first render and the first run of the effect. *)
Definition mount : Page :=
  mkPage App.initial
         (match Query.GIPHY_KEY App.initial with
          | Ok k => step initial_world (SetEndpoint (JStr k))
          | Throw _ => initial_world
          end).

Definition page_step (p : Page) (ev : PageEvent) : Page :=
  match ev with
  | Edit e =>
      let a' := App.onChange (app p) e in
      mkPage a' (rerender (Query.GIPHY_KEY (app p)) a' (viewer p))
  | ClickLike => mkPage (app p) (step (viewer p) (Vote (JStr "like")))
  | ClickDislike => mkPage (app p) (step (viewer p) (Vote (JStr "dislike")))
  | FetchDone rid r => mkPage (app p) (step (viewer p) (FetchSettled rid r))
  | JsonDone rid r => mkPage (app p) (step (viewer p) (JsonSettled rid r))
  end.

Definition page_run (p : Page) (evs : list PageEvent) : Page :=
  fold_left page_step evs p.

(** The request React holds the cleanup of is in flight or done for the
    endpoint [App] currently renders, and has not been told to stand down. *)
Definition in_sync (p : Page) : Prop :=
  exists k rid r,
    Query.GIPHY_KEY (app p) = Ok k /\
    cleanup (viewer p) = Some rid /\
    nth_error (requests (viewer p)) rid = Some r /\
    endpoint r = JStr k /\
    ignore r = false.

End Page.

(** *** Vocabulary of the further statements *)


(** How many of the votes [kinds] are likes. *)
Definition count_likes (kinds : list JSValue) : nat :=
  List.length (filter (fun k => JS.strict_eq_str k "like") kinds).

(** The events that start a fetch: an [apiKey] that passes the check. *)
Definition restarts (ev : Event) : bool :=
  match ev with
  | SetEndpoint v => negb (invalid_endpoint v)
  | _ => false
  end.

(** At most one effect closure may still write: every request but the one
    whose cleanup React holds has its [ignore] flag raised. *)
Definition single_writer (w : World) : Prop :=
  forall rid r,
    nth_error (requests w) rid = Some r -> ignore r = false ->
    cleanup w = Some rid.

(** The request whose cleanup React holds exists, may write, and the loading
    flag tells whether it is still pending; while it is, no error is set. *)
Definition loading_tracks (w : World) : Prop :=
  forall rid, cleanup w = Some rid ->
    exists r,
      nth_error (requests w) rid = Some r /\
      ignore r = false /\
      (phase r <> Finished -> loading (st w) = true /\ error (st w) = "") /\
      (phase r = Finished -> loading (st w) = false).

Definition viewer_inv (w : World) : Prop :=
  single_writer w /\ loading_tracks w.

(** No effect closure may write any more. *)
Definition all_stale (w : World) : Prop :=
  cleanup w = None /\
  forall rid r, nth_error (requests w) rid = Some r -> ignore r = true.

(** Two lists of requests that differ at most in requests that are stale in
    both. *)
Definition requests_agree (rs1 rs2 : list Request) : Prop :=
  List.length rs1 = List.length rs2 /\
  forall rid r1 r2,
    nth_error rs1 rid = Some r1 -> nth_error rs2 rid = Some r2 ->
    r1 = r2 \/ (ignore r1 = true /\ ignore r2 = true).

(** Two worlds that show the same and differ at most in how far their stale
    requests have got. *)
Definition same_but_stale (w1 w2 : World) : Prop :=
  st w1 = st w2 /\
  cleanup w1 = cleanup w2 /\
  next_oid w1 = next_oid w2 /\
  requests_agree (requests w1) (requests w2).

(** The items of [items] that a run of votes [kinds] sends to the liked
    list, one vote per item from the front. *)
Definition likes (items : list GifItem) (kinds : list JSValue) : list GifItem :=
  map fst (filter (fun p => JS.strict_eq_str (snd p) "like")
                  (combine items kinds)).

Definition dislikes (items : list GifItem) (kinds : list JSValue) : list GifItem :=
  map fst (filter (fun p => negb (JS.strict_eq_str (snd p) "like"))
                  (combine items kinds)).

(** ** Bookkeeping of the effect closures *)

Section Requests.

Variables (f : Request -> Request).

Lemma update_request_cons_S (n : nat) (a : Request) (rs : list Request) :
  update_request (S n) f (a :: rs) = a :: update_request n f rs.
Proof.
  unfold update_request. simpl.
  destruct (nth_error rs n); reflexivity.
Qed.

Lemma update_request_length (n : nat) (rs : list Request) :
  List.length (update_request n f rs) = List.length rs.
Proof.
  revert n. induction rs as [|a rs IH]; intros [|n]; try reflexivity.
  rewrite update_request_cons_S. simpl. now rewrite IH.
Qed.

Lemma update_request_same (n : nat) (rs : list Request) (r : Request) :
  nth_error rs n = Some r ->
  nth_error (update_request n f rs) n = Some (f r).
Proof.
  revert n. induction rs as [|a rs IH]; intros [|n] H; try discriminate.
  - inversion H; subst. reflexivity.
  - rewrite update_request_cons_S. simpl. apply IH. exact H.
Qed.

Lemma update_request_other (n k : nat) (rs : list Request) :
  n <> k ->
  nth_error (update_request n f rs) k = nth_error rs k.
Proof.
  revert n k. induction rs as [|a rs IH]; intros [|n] [|k] H;
    try reflexivity; try congruence.
  - rewrite update_request_cons_S. reflexivity.
  - rewrite update_request_cons_S. simpl. apply IH. congruence.
Qed.

(** An update that keeps a raised [ignore] flag raised leaves every stale
    request stale. *)
Lemma update_request_keeps_ignore (n k : nat) (rs : list Request) (r : Request) :
  (forall x, ignore x = true -> ignore (f x) = true) ->
  nth_error rs k = Some r -> ignore r = true ->
  exists r', nth_error (update_request n f rs) k = Some r' /\ ignore r' = true.
Proof.
  intros Hf Hk Hi. destruct (Nat.eq_dec n k) as [->|Hne].
  - exists (f r). split; [now apply update_request_same | now apply Hf].
  - exists r. split; [now rewrite update_request_other | exact Hi].
Qed.

End Requests.

Lemma set_ignore_keeps (x : Request) : ignore x = true -> ignore (set_ignore x) = true.
Proof. reflexivity. Qed.

Lemma set_phase_keeps (p : Phase) (x : Request) :
  ignore x = true -> ignore (set_phase p x) = true.
Proof. intro H; exact H. Qed.

Lemma stale_run_cleanup (rid : nat) (w : World) :
  stale rid w -> stale rid (run_cleanup w).
Proof.
  intros (r & Hr & Hi). unfold run_cleanup.
  destruct (cleanup w) as [k|]; [|now exists r].
  unfold stale; simpl.
  eapply update_request_keeps_ignore; eauto using set_ignore_keeps.
Qed.

Lemma stale_run_effect (rid : nat) (v : JSValue) (w : World) :
  stale rid w -> stale rid (run_effect v w).
Proof.
  intros (r & Hr & Hi). unfold run_effect.
  destruct (invalid_endpoint v); exists r; simpl; split; auto.
  rewrite nth_error_app1; [exact Hr|].
  apply nth_error_Some. congruence.
Qed.

Lemma stale_finish (rid k : nat) (w : World) (s : State) (o : nat) :
  stale rid w -> stale rid (finish k w s o).
Proof.
  intros (r & Hr & Hi). unfold stale, finish; simpl.
  eapply update_request_keeps_ignore; eauto using set_phase_keeps.
Qed.

Lemma stale_step (rid : nat) (w : World) (ev : Event) :
  stale rid w -> stale rid (step w ev).
Proof.
  intros H. destruct ev as [v| |k r|k r|kind|kinds]; simpl.
  - now apply stale_run_effect, stale_run_cleanup.
  - now apply stale_run_cleanup.
  - unfold fetch_settled.
    destruct (nth_error (requests w) k) as [rq|]; [|exact H].
    destruct (phase rq); try exact H.
    destruct r as [res|e]; [destruct (negb (ok res))|];
      try now apply stale_finish.
    destruct H as (r & Hr & Hi). unfold stale; simpl.
    eapply update_request_keeps_ignore; eauto using set_phase_keeps.
  - unfold json_settled.
    destruct (nth_error (requests w) k) as [rq|]; [|exact H].
    destruct (phase rq); try exact H.
    destruct r as [json|e]; [|now apply stale_finish].
    destruct (ignore rq); [now apply stale_finish|].
    destruct (normalize (next_oid w) json); now apply stale_finish.
  - exact H.
  - exact H.
Qed.

Lemma stale_run (rid : nat) (evs : list Event) (w : World) :
  stale rid w -> stale rid (run w evs).
Proof.
  revert w. induction evs as [|ev evs IH]; intros w H; [exact H|].
  simpl. apply IH. now apply stale_step.
Qed.

(** A stale request that resumes touches no state cell. *)
Lemma stale_resolution (rid : nat) (w : World) (ev : Event) :
  stale rid w -> resolves rid ev = true -> st (step w ev) = st w.
Proof.
  intros (r & Hr & Hi) Hev.
  destruct ev as [v| |k o|k o|kind|kinds]; try discriminate;
    simpl in Hev; apply Nat.eqb_eq in Hev; subst k; simpl.
  - unfold fetch_settled. rewrite Hr.
    destruct (phase r); try reflexivity.
    destruct o as [res|e]; [destruct (negb (ok res))|]; simpl;
      unfold catch_finally; rewrite ?Hi; reflexivity.
  - unfold json_settled. rewrite Hr.
    destruct (phase r); try reflexivity.
    destruct o as [json|e]; rewrite ?Hi; simpl;
      unfold catch_finally; rewrite ?Hi; reflexivity.
Qed.

Lemma live_started (v : JSValue) (w : World) :
  invalid_endpoint v = false ->
  live (List.length (requests w)) (step w (SetEndpoint v)).
Proof.
  intros Hv. simpl. unfold run_effect. rewrite Hv.
  assert (HL : List.length (requests (run_cleanup w)) = List.length (requests w)).
  { unfold run_cleanup. destruct (cleanup w); [|reflexivity].
    simpl. apply update_request_length. }
  split; simpl.
  - now rewrite HL.
  - rewrite <- HL. rewrite nth_error_app2 by lia.
    rewrite Nat.sub_diag. simpl. eauto.
Qed.

Lemma live_finish (rid k : nat) (w : World) (s : State) (o : nat) :
  live rid w -> live rid (finish k w s o).
Proof.
  intros (Hc & r & Hr). split; [exact Hc|]. simpl.
  destruct (Nat.eq_dec k rid) as [->|Hne].
  - exists (set_phase Finished r). now apply update_request_same.
  - exists r. now rewrite update_request_other.
Qed.

Lemma live_quiet (rid : nat) (w : World) (ev : Event) :
  live rid w -> supersedes ev = false -> live rid (step w ev).
Proof.
  intros H Hq. destruct ev as [v| |k r|k r|kind|kinds]; try discriminate; simpl.
  - unfold fetch_settled.
    destruct (nth_error (requests w) k) as [rq|]; [|exact H].
    destruct (phase rq); try exact H.
    destruct r as [res|e]; [destruct (negb (ok res))|];
      try now apply live_finish.
    destruct H as (Hc & r & Hr). split; [exact Hc|]. simpl.
    destruct (Nat.eq_dec k rid) as [->|Hne].
    + exists (set_phase AwaitJson r). now apply update_request_same.
    + exists r. now rewrite update_request_other.
  - unfold json_settled.
    destruct (nth_error (requests w) k) as [rq|]; [|exact H].
    destruct (phase rq); try exact H.
    destruct r as [json|e]; [|now apply live_finish].
    destruct (ignore rq); [now apply live_finish|].
    destruct (normalize (next_oid w) json); now apply live_finish.
  - exact H.
  - exact H.
Qed.

Lemma live_quiet_run (rid : nat) (evs : list Event) (w : World) :
  live rid w -> forallb (fun ev => negb (supersedes ev)) evs = true ->
  live rid (run w evs).
Proof.
  revert w. induction evs as [|ev evs IH]; intros w H Hq; [exact H|].
  simpl in Hq. apply andb_true_iff in Hq as [Hev Hq].
  simpl. apply IH; [|exact Hq].
  apply live_quiet; [exact H|]. now apply negb_true_iff.
Qed.

Lemma live_superseded (rid : nat) (w : World) (ev : Event) :
  live rid w -> supersedes ev = true -> stale rid (step w ev).
Proof.
  intros (Hc & r & Hr) Hs.
  assert (Hcl : stale rid (run_cleanup w)).
  { unfold run_cleanup. rewrite Hc. exists (set_ignore r). simpl.
    split; [now apply update_request_same | reflexivity]. }
  destruct ev as [v| |k o|k o|kind|kinds]; try discriminate; simpl.
  - now apply stale_run_effect.
  - exact Hcl.
Qed.

(** ** The staleness guard *)

(** C1.  A fetch is started for an endpoint [e1]; later the effect is
    superseded, by a new [apiKey] or by the unmount, before the request
    resolves; any events may follow.  When the request then resumes, at
    either [await], with a response, a parsed body or a thrown error, the
    six state cells (deck, pointer, liked, disliked, loading, error) are
    exactly what they were: nothing is written on the success path, in the
    [catch] or in the [finally]. *)
Theorem superseded_resolution_discarded
    (w : World) (e1 : JSValue) (quiet : list Event) (sup : Event)
    (later : list Event) (res : Event) :
  invalid_endpoint e1 = false ->
  forallb (fun ev => negb (supersedes ev)) quiet = true ->
  supersedes sup = true ->
  resolves (List.length (requests w)) res = true ->
  let w' := run (step (run (step w (SetEndpoint e1)) quiet) sup) later in
  st (step w' res) = st w'.
Proof.
  intros Hvalid Hquiet Hsup Hres w'.
  apply stale_resolution with (rid := List.length (requests w)); [|exact Hres].
  subst w'. apply stale_run.
  apply live_superseded; [|exact Hsup].
  apply live_quiet_run; [|exact Hquiet].
  now apply live_started.
Qed.

Lemma superseded_resolution_discarded_witness :
  let w := Sample.loaded in
  let quiet := [Vote (JStr "like"); FetchSettled 1 (Ok (mkResponse 200))] in
  let later := [Vote (JStr "dislike")] in
  let res := JsonSettled 1 (Ok Sample.bare) in
  let w' := run (step (run (step w (SetEndpoint Sample.search2)) quiet) Unmount)
                later in
  invalid_endpoint Sample.search2 = false /\
  forallb (fun ev => negb (supersedes ev)) quiet = true /\
  supersedes Unmount = true /\
  resolves (List.length (requests w)) res = true /\
  st (step w' res) = st w'.
Proof.
  do 4 (split; [reflexivity|]).
  apply (superseded_resolution_discarded Sample.loaded Sample.search2
           [Vote (JStr "like"); FetchSettled 1 (Ok (mkResponse 200))]
           Unmount [Vote (JStr "dislike")] (JsonSettled 1 (Ok Sample.bare)));
    reflexivity.
Defined.

(** ** Votes *)

Lemma current_some (s : State) :
  idx s < List.length (gifs s) -> exists c, current s = Some c.
Proof.
  intro H. unfold current.
  destruct (nth_error (gifs s) (idx s)) as [c|] eqn:E; [eauto|].
  apply nth_error_None in E. lia.
Qed.

Lemma current_none (s : State) :
  List.length (gifs s) <= idx s -> current s = None.
Proof. intro H. unfold current. now apply nth_error_None. Qed.

Lemma strict_eq_str_true (v : JSValue) (lit : string) :
  JS.strict_eq_str v lit = true <-> v = JStr lit.
Proof.
  destruct v; simpl; split; intro H; try discriminate.
  - apply String.eqb_eq in H. now subst.
  - inversion H. apply String.eqb_refl.
Qed.

Lemma strict_eq_str_false (v : JSValue) (lit : string) :
  v <> JStr lit -> JS.strict_eq_str v lit = false.
Proof.
  intro H. destruct (JS.strict_eq_str v lit) eqn:E; [|reflexivity].
  apply strict_eq_str_true in E. contradiction.
Qed.

(** C3.  With a current item [c] at the pointer, a vote advances the pointer
    by exactly one, leaves the deck (and the loading and error cells) alone,
    and appends [c] to exactly one list: to [liked] for the kind ["like"], to
    [disliked] for the kind ["dislike"], the other list being unchanged. *)
Theorem vote_advances_and_appends (w : World) (kind : JSValue) :
  idx (st w) < List.length (gifs (st w)) ->
  exists c,
    nth_error (gifs (st w)) (idx (st w)) = Some c /\
    let s' := st (step w (Vote kind)) in
    idx s' = idx (st w) + 1 /\
    gifs s' = gifs (st w) /\
    loading s' = loading (st w) /\
    error s' = error (st w) /\
    (kind = JStr "like" ->
       liked s' = liked (st w) ++ [c] /\ disliked s' = disliked (st w)) /\
    (kind = JStr "dislike" ->
       disliked s' = disliked (st w) ++ [c] /\ liked s' = liked (st w)) /\
    ((liked s' = liked (st w) ++ [c] /\ disliked s' = disliked (st w)) \/
     (disliked s' = disliked (st w) ++ [c] /\ liked s' = liked (st w))).
Proof.
  intro H. destruct (current_some _ H) as [c Hc].
  exists c. split; [exact Hc|].
  simpl. unfold handleVote. rewrite Hc.
  destruct (JS.strict_eq_str kind "like") eqn:E; simpl;
    (do 4 (split; [reflexivity|])); (split; [|split]).
  - intros _. split; reflexivity.
  - intros ->. discriminate E.
  - left. split; reflexivity.
  - intros ->. discriminate E.
  - intros _. split; reflexivity.
  - right. split; reflexivity.
Qed.

Lemma vote_advances_and_appends_witness :
  idx (st Sample.loaded) < List.length (gifs (st Sample.loaded)) /\
  exists c,
    nth_error (gifs (st Sample.loaded)) 0 = Some c /\
    idx (st (step Sample.loaded (Vote (JStr "dislike")))) = 1 /\
    disliked (st (step Sample.loaded (Vote (JStr "dislike")))) = [c] /\
    liked (st (step Sample.loaded (Vote (JStr "dislike")))) = [].
Proof.
  assert (H : idx (st Sample.loaded) < List.length (gifs (st Sample.loaded)))
    by (vm_compute; lia).
  split; [exact H|].
  destruct (vote_advances_and_appends Sample.loaded (JStr "dislike") H)
    as (c & Hc & Hidx & _ & _ & _ & _ & Hdis & _).
  exists c. destruct (Hdis eq_refl) as [Hd Hl].
  split; [exact Hc|]. split; [exact Hidx|]. split; [exact Hd | exact Hl].
Defined.

(** C4.  With the pointer at or past the end of the deck there is no current
    item and a vote of any kind changes nothing: the six state cells, and
    the rest of the component, are as before. *)
Theorem vote_on_exhausted_deck_is_noop (w : World) (kind : JSValue) :
  List.length (gifs (st w)) <= idx (st w) ->
  st (step w (Vote kind)) = st w /\ step w (Vote kind) = w.
Proof.
  intro H. simpl. unfold handleVote. rewrite (current_none _ H).
  split; [reflexivity|]. now destruct w.
Qed.

Lemma vote_on_exhausted_deck_is_noop_witness :
  let w := run Sample.loaded
             [Vote (JStr "like"); Vote (JStr "like"); Vote (JStr "like")] in
  List.length (gifs (st w)) <= idx (st w) /\
  st (step w (Vote (JStr "like"))) = st w /\
  step w (Vote (JStr "like")) = w.
Proof.
  split; [vm_compute; lia|].
  apply (vote_on_exhausted_deck_is_noop
           (run Sample.loaded
              [Vote (JStr "like"); Vote (JStr "like"); Vote (JStr "like")])
           (JStr "like")).
  vm_compute; lia.
Defined.

(** C10.  With a current item [c], a vote whose kind is anything but the
    string ["like"] (another string, or no string at all) is taken as a
    dislike: [c] goes to [disliked], [liked] is unchanged and the pointer
    advances.  No kind is refused. *)
Theorem vote_defaults_to_dislike (w : World) (kind : JSValue) (c : GifItem) :
  current (st w) = Some c ->
  kind <> JStr "like" ->
  let s' := st (step w (Vote kind)) in
  disliked s' = disliked (st w) ++ [c] /\
  liked s' = liked (st w) /\
  idx s' = idx (st w) + 1.
Proof.
  intros Hc Hk. simpl. unfold handleVote. rewrite Hc.
  rewrite (strict_eq_str_false _ _ Hk). simpl. auto.
Qed.

Lemma vote_defaults_to_dislike_witness :
  let c := mkGif 0 (JStr "c1") (JStr "Cat one") (JStr "m1.gif")
                 (JStr "https://giphy.com/gifs/c1") in
  current (st Sample.loaded) = Some c /\
  JStr "Like" <> JStr "like" /\
  disliked (st (step Sample.loaded (Vote (JStr "Like")))) = [c] /\
  liked (st (step Sample.loaded (Vote (JStr "Like")))) = [] /\
  idx (st (step Sample.loaded (Vote (JStr "Like")))) = 1.
Proof.
  split; [reflexivity|]. split; [discriminate|].
  apply (vote_defaults_to_dislike Sample.loaded (JStr "Like")
           (mkGif 0 (JStr "c1") (JStr "Cat one") (JStr "m1.gif")
                  (JStr "https://giphy.com/gifs/c1")));
    [reflexivity | discriminate].
Defined.

(** ** The endpoint check *)

Lemma run_cleanup_st (w : World) : st (run_cleanup w) = st w.
Proof. unfold run_cleanup. now destruct (cleanup w). Qed.

Lemma run_cleanup_length (w : World) :
  List.length (requests (run_cleanup w)) = List.length (requests w).
Proof.
  unfold run_cleanup. destruct (cleanup w); [|reflexivity].
  simpl. apply update_request_length.
Qed.

(** The guard of the effect refuses exactly what is not a non-empty
    string. *)
Lemma invalid_endpoint_spec (v : JSValue) :
  invalid_endpoint v = true <-> (forall s, v = JStr s -> s = "").
Proof.
  unfold invalid_endpoint. split.
  - intros H s ->. simpl in H. rewrite orb_false_r in H.
    rewrite negb_involutive in H. now apply String.eqb_eq.
  - intros H. destruct v; try reflexivity;
      try (apply orb_true_iff; right; reflexivity).
    now rewrite (H s eq_refl).
Qed.

(** C8.  When [apiKey] is not a non-empty string (the empty string, or a
    value of another type), the effect sets the error to the fixed message,
    which begins with "Invalid endpoint", starts no request and registers no
    cleanup; deck, pointer, both vote lists and the loading flag keep their
    values. *)
Theorem invalid_endpoint_sets_error_without_fetch (w : World) (apiKey : JSValue) :
  (forall s, apiKey = JStr s -> s = "") ->
  let w' := step w (SetEndpoint apiKey) in
  error (st w') = invalid_message /\
  prefix "Invalid endpoint" (error (st w')) = true /\
  List.length (requests w') = List.length (requests w) /\
  cleanup w' = None /\
  gifs (st w') = gifs (st w) /\
  idx (st w') = idx (st w) /\
  liked (st w') = liked (st w) /\
  disliked (st w') = disliked (st w) /\
  loading (st w') = loading (st w).
Proof.
  intros H. apply invalid_endpoint_spec in H.
  simpl. unfold run_effect. rewrite H. simpl.
  rewrite run_cleanup_st, run_cleanup_length.
  repeat (split; [reflexivity|]). reflexivity.
Qed.

Lemma invalid_endpoint_sets_error_without_fetch_witness :
  let w' := step Sample.loaded (SetEndpoint (JStr "")) in
  (forall s, JStr "" = JStr s -> s = "") /\
  error (st w') = invalid_message /\
  prefix "Invalid endpoint" (error (st w')) = true /\
  List.length (requests w') = List.length (requests Sample.loaded) /\
  cleanup w' = None /\
  gifs (st w') = gifs (st Sample.loaded) /\
  idx (st w') = idx (st Sample.loaded) /\
  liked (st w') = liked (st Sample.loaded) /\
  disliked (st w') = disliked (st Sample.loaded) /\
  loading (st w') = loading (st Sample.loaded).
Proof.
  split.
  - intros s Hs. inversion Hs. reflexivity.
  - apply (invalid_endpoint_sets_error_without_fetch Sample.loaded (JStr "")).
    intros s Hs. inversion Hs. reflexivity.
Defined.

(** ** Failed fetches *)

(** C7.  A request that has not been superseded fails: the response came
    with a status outside 200..299, or [fetch] or [res.json()] threw.  The
    error cell then holds the failure's message ([HTTP <status>] for a
    refused response, so a text containing "500" for status 500; the thrown
    error's message otherwise), the loading flag is cleared, and deck,
    pointer and both vote lists are untouched. *)
Theorem failed_fetch_sets_error_and_keeps_deck
    (w : World) (rid : nat) (rq : Request) (f : Failure) :
  nth_error (requests w) rid = Some rq ->
  ignore rq = false ->
  phase rq = failure_phase f ->
  is_failure f = true ->
  let s' := st (step w (failure_event rid f)) in
  error s' = failure_message f /\
  (forall res, f = HttpFailure res -> status res = 500 ->
     error s' = "HTTP 500" /\ contains "500" (error s') = true) /\
  (forall e, f = FetchThrew e \/ f = ParseThrew e -> err_message e <> "" ->
     error s' = err_message e) /\
  loading s' = false /\
  gifs s' = gifs (st w) /\
  idx s' = idx (st w) /\
  liked s' = liked (st w) /\
  disliked s' = disliked (st w).
Proof.
  intros Hr Hi Hp Hf s'.
  assert (Hs : s' = setLoading false (setError (failure_message f) (st w))).
  { subst s'. destruct f as [res|e|e]; simpl in *.
    - unfold fetch_settled. rewrite Hr, Hp, Hf. simpl.
      unfold catch_finally. rewrite Hi. reflexivity.
    - unfold fetch_settled. rewrite Hr, Hp. simpl.
      unfold catch_finally, catch_text. rewrite Hi.
      now destruct (String.eqb (err_message e) "").
    - unfold json_settled. rewrite Hr, Hp. simpl.
      unfold catch_finally, catch_text. rewrite Hi.
      now destruct (String.eqb (err_message e) ""). }
  rewrite Hs. simpl.
  split; [reflexivity|]. split; [|split; [|repeat (split; [reflexivity|]); reflexivity]].
  - intros res -> H500. simpl. rewrite H500. split; reflexivity.
  - intros e [-> | ->] Hm; simpl;
      (destruct (String.eqb (err_message e) "") eqn:E; [|reflexivity]);
      apply String.eqb_eq in E; contradiction.
Qed.

Lemma failed_fetch_sets_error_and_keeps_deck_witness :
  let w := Sample.refetching in
  let f := HttpFailure (mkResponse 500) in
  let rq := mkRequest Sample.search2 false AwaitFetch in
  let s' := st (step w (failure_event 1 f)) in
  nth_error (requests w) 1 = Some rq /\
  ignore rq = false /\
  phase rq = failure_phase f /\
  is_failure f = true /\
  error s' = "HTTP 500" /\
  loading s' = false /\
  gifs s' = gifs (st w) /\
  idx s' = idx (st w) /\
  liked s' = liked (st w) /\
  disliked s' = disliked (st w).
Proof.
  do 4 (split; [reflexivity|]).
  destruct (failed_fetch_sets_error_and_keeps_deck Sample.refetching 1
              (mkRequest Sample.search2 false AwaitFetch)
              (HttpFailure (mkResponse 500))
              eq_refl eq_refl eq_refl eq_refl)
    as (_ & H500 & _ & Hrest).
  split; [exact (proj1 (H500 (mkResponse 500) eq_refl eq_refl)) | exact Hrest].
Defined.

(** ** Normalization *)

Lemma mapper_throws (o : nat) (d : JSValue) :
  JS.nullish d = true -> exists e, mapper o d = Throw e.
Proof.
  intro H. unfold mapper, JS.get. rewrite H. simpl. eauto.
Qed.

Lemma mapper_ok (o : nat) (d : JSValue) :
  JS.nullish d = false ->
  exists g, mapper o d = Ok g /\ item_of d g /\ oid g = o.
Proof.
  intro H. unfold mapper, variant_url, JS.get, JS.or_else. rewrite H.
  unfold item_of, image_url. simpl.
  destruct (JS.truthy (JS.read d "title")); simpl;
    destruct (JS.truthy (JS.get_opt (JS.get_opt (JS.read d "images")
                                       "downsized_medium") "url")); simpl;
    try (destruct (JS.truthy (JS.get_opt (JS.get_opt (JS.read d "images")
                                            "original") "url")); simpl);
    eexists; (split; [reflexivity|]); simpl; auto.
Qed.

Lemma mapper_oid (o : nat) (d : JSValue) (g : GifItem) :
  mapper o d = Ok g -> oid g = o.
Proof.
  intro H. destruct (JS.nullish d) eqn:E.
  - destruct (mapper_throws o d E) as [e He]. congruence.
  - destruct (mapper_ok o d E) as (g' & Hg & _ & Ho). congruence.
Qed.

Lemma map_records_ok (ds : list JSValue) (o : nat) :
  forallb (fun d => negb (JS.nullish d)) ds = true ->
  exists items, map_records o ds = Ok items /\ Forall2 item_of ds items.
Proof.
  revert o. induction ds as [|d ds IH]; intros o H; simpl.
  - exists []. split; [reflexivity | constructor].
  - simpl in H. apply andb_true_iff in H as [Hd Hds].
    apply negb_true_iff in Hd.
    destruct (mapper_ok o d Hd) as (g & Hg & Hitem & _).
    destruct (IH (S o) Hds) as (gs & Hgs & Hall).
    exists (g :: gs). rewrite Hg; simpl. rewrite Hgs; simpl.
    split; [reflexivity | now constructor].
Qed.

Lemma map_records_shape (ds : list JSValue) (o : nat) (items : list GifItem) :
  map_records o ds = Ok items ->
  forallb (fun d => negb (JS.nullish d)) ds = true /\
  map oid items = seq o (List.length items).
Proof.
  revert o items. induction ds as [|d ds IH]; intros o items H; simpl in H.
  - inversion H. split; reflexivity.
  - destruct (mapper o d) as [g|e] eqn:Hg; simpl in H; [|discriminate].
    destruct (map_records (S o) ds) as [gs|e] eqn:Hgs; simpl in H; [|discriminate].
    inversion H; subst items. destruct (IH _ _ Hgs) as [Hall Hoids].
    split.
    + simpl. rewrite Hall, andb_true_r.
      destruct (JS.nullish d) eqn:E; [|reflexivity].
      destruct (mapper_throws o d E) as [e He]. congruence.
    + simpl. now rewrite (mapper_oid _ _ _ Hg), Hoids.
Qed.

(** Normalization goes through exactly on the well-shaped bodies; on any
    other the mapper throws. *)
Lemma normalize_ok_iff (o : nat) (json : JSValue) :
  (exists items, normalize o json = Ok items) <-> well_shaped json = true.
Proof.
  unfold normalize, well_shaped.
  destruct (JS.truthy (JS.get_opt json "data")) eqn:T.
  - destruct (JS.get_opt json "data") as [| | | | |ds|]; split;
      try (intros [items H]; discriminate); try discriminate.
    + intros [items H]. now apply map_records_shape in H.
    + intro H. destruct (map_records_ok ds o H) as (items & Hi & _). eauto.
  - split; [reflexivity|]. intros _. exists []. reflexivity.
Qed.


(** C6, as amended.  For a body whose [data] field is absent (or otherwise
    falsy) normalization yields the empty deck; for a body whose [data] is
    an array without [null] records it yields one item per record, in the
    order of the response, with the record's [id] and [url], as title the
    record's title or "Untitled" when that is absent or empty, and as
    preview the first truthy URL among the variants downsized_medium,
    original, downsized, or what the last variant reads ([undefined] when it
    is absent) if none is truthy. *)
Theorem normalize_maps_records_in_order (o : nat) (json : JSValue) :
  well_shaped json = true ->
  exists items,
    normalize o json = Ok items /\
    Forall2 item_of (records json) items /\
    List.length items = List.length (records json) /\
    (JS.truthy (JS.get_opt json "data") = false -> items = []).
Proof.
  unfold well_shaped, normalize, records.
  destruct (JS.truthy (JS.get_opt json "data")) eqn:T.
  - destruct (JS.get_opt json "data") as [| | | | |ds|]; try discriminate.
    intro H. destruct (map_records_ok ds o H) as (items & Hi & Hall).
    exists items. repeat split; auto; try discriminate.
    symmetry. eapply Forall2_length; eauto.
  - intros _. exists [].
    destruct (JS.get_opt json "data"); try discriminate;
      repeat split; auto; constructor.
Qed.

Lemma normalize_maps_records_in_order_witness :
  well_shaped Sample.cats = true /\
  exists items,
    normalize 7 Sample.cats = Ok items /\
    Forall2 item_of (records Sample.cats) items /\
    List.length items = 3.
Proof.
  split; [reflexivity|].
  destruct (normalize_maps_records_in_order 7 Sample.cats eq_refl)
    as (items & Hn & Hall & Hlen & _).
  exists items. split; [exact Hn|]. split; [exact Hall | exact Hlen].
Defined.

(** C6 as stated fails: a record without image variants is normalized to an
    item whose preview is [undefined], which is no string; and a body whose
    [data] array holds [null] is not mapped at all, the mapper throws. *)
Lemma preview_may_be_undefined :
  (normalize 0 Sample.bare
     = Ok [mkGif 0 (JStr "b1") (JStr "Bare") JUndefined JUndefined] /\
   JS.typeof JUndefined <> "string") /\
  normalize 0 (JObj [("data", JArr [JNull])])
    = Throw (JS.cannot_read JNull "id").
Proof. split; [split; [reflexivity | discriminate] | reflexivity]. Qed.

(** ** Successful fetches *)

(** C2, as amended.  When a request that has not been superseded gets its
    parsed body, and the body is well shaped, the deck becomes the
    normalized list of that body, the pointer is 0 and both vote lists are
    empty, whatever they were before; the loading flag is cleared too. *)
Theorem successful_fetch_installs_deck
    (w : World) (rid : nat) (rq : Request) (json : JSValue) :
  nth_error (requests w) rid = Some rq ->
  phase rq = AwaitJson ->
  ignore rq = false ->
  well_shaped json = true ->
  exists mapped,
    normalize (next_oid w) json = Ok mapped /\
    let s' := st (step w (JsonSettled rid (Ok json))) in
    gifs s' = mapped /\
    idx s' = 0 /\
    liked s' = [] /\
    disliked s' = [] /\
    loading s' = false.
Proof.
  intros Hr Hp Hi Hw.
  destruct (proj2 (normalize_ok_iff (next_oid w) json) Hw) as [mapped Hn].
  exists mapped. split; [exact Hn|].
  simpl. unfold json_settled. rewrite Hr, Hp, Hi, Hn. simpl.
  repeat (split; [reflexivity|]). reflexivity.
Qed.

Lemma successful_fetch_installs_deck_witness :
  let w := run Sample.refetching
             [Vote (JStr "like"); FetchSettled 1 (Ok (mkResponse 200))] in
  let rq := mkRequest Sample.search2 false AwaitJson in
  nth_error (requests w) 1 = Some rq /\
  phase rq = AwaitJson /\
  ignore rq = false /\
  well_shaped Sample.bare = true /\
  liked (st w) <> [] /\
  exists mapped,
    normalize (next_oid w) Sample.bare = Ok mapped /\
    let s' := st (step w (JsonSettled 1 (Ok Sample.bare))) in
    gifs s' = mapped /\ idx s' = 0 /\ liked s' = [] /\ disliked s' = [] /\
    loading s' = false.
Proof.
  do 4 (split; [reflexivity|]). split; [discriminate|].
  apply (successful_fetch_installs_deck
           (run Sample.refetching
              [Vote (JStr "like"); FetchSettled 1 (Ok (mkResponse 200))])
           1 (mkRequest Sample.search2 false AwaitJson) Sample.bare);
    reflexivity.
Defined.

(** C2 as stated fails, twice.  The response was fine and its body parsed,
    but the endpoint had changed in between: pointer and liked list keep the
    values the earlier vote gave them.  And with the request still current,
    a parsed body whose [data] array holds [null] makes the mapper throw:
    again nothing is reset. *)
Lemma superseded_success_resets_nothing :
  let w0 := run Sample.refetching
              [Vote (JStr "like"); FetchSettled 1 (Ok (mkResponse 200))] in
  let w := step w0 (SetEndpoint Sample.search) in
  let s' := st (step w (JsonSettled 1 (Ok Sample.bare))) in
  let s0' := st (step w0 (JsonSettled 1 (Ok (JObj [("data", JArr [JNull])])))) in
  (option_map phase (nth_error (requests w) 1) = Some AwaitJson /\
   idx s' = 1 /\
   liked s' <> [] /\
   Ok (gifs s') <> normalize (next_oid w) Sample.bare) /\
  (nth_error (requests w0) 1 = Some (mkRequest Sample.search2 false AwaitJson) /\
   idx s0' = 1 /\
   liked s0' <> []).
Proof.
  split.
  - split; [reflexivity|]. split; [reflexivity|].
    split; vm_compute; discriminate.
  - split; [reflexivity|]. split; [reflexivity|].
    vm_compute; discriminate.
Qed.

(** A parsed body that is not well shaped makes the mapper throw: the
    [catch] reports it and the deck stays. *)
Example malformed_body_is_caught :
  let w := run Sample.refetching [FetchSettled 1 (Ok (mkResponse 200))] in
  let s' := st (step w (JsonSettled 1 (Ok (JObj [("data", JArr [JNull])])))) in
  gifs s' = gifs (st w) /\ loading s' = false /\
  error s' = err_message (JS.cannot_read JNull "id").
Proof. repeat split. Qed.

(** ** The deck invariant *)











(** C5.  The code breaks it.  On a deck of three just fetched, Like and
    then Dislike called from one render, before React renders again, both
    file the first item: it is in the liked and in the disliked list, and
    the pointer has skipped the second item.  Four likes from one render
    put four items in the liked list, more than the deck holds, and the
    pointer past its end: the guard read the render's [current] too. *)
Theorem votes_of_one_render_break_the_lists :
  let c1 := mkGif 0 (JStr "c1") (JStr "Cat one") (JStr "m1.gif")
                  (JStr "https://giphy.com/gifs/c1") in
  let s2 := st (step Sample.loaded (Votes [JStr "like"; JStr "dislike"])) in
  let s4 := st (step Sample.loaded
                  (Votes [JStr "like"; JStr "like"; JStr "like"; JStr "like"])) in
  (idx (st Sample.loaded) = 0 /\ liked (st Sample.loaded) = [] /\
   disliked (st Sample.loaded) = [] /\
   List.length (gifs (st Sample.loaded)) = 3) /\
  (liked s2 = [c1] /\ disliked s2 = [c1] /\ idx s2 = 2 /\
   In c1 (liked s2) /\ In c1 (disliked s2)) /\
  (List.length (liked s4) + List.length (disliked s4) = 4 /\
   List.length (gifs s4) = 3 /\ idx s4 = 4).
Proof.
  split; [repeat split|]. split.
  - split; [reflexivity|]. split; [reflexivity|]. split; [reflexivity|].
    split; left; reflexivity.
  - repeat split.
Qed.

(** ** The result-count input *)

Lemma limit_after_edits (es : list App.Edit) (a : App.AppState)
    (acc : option string) :
  App.limit a = match acc with Some v => JStr v | None => JNum 12 end ->
  App.limit (App.edits a es)
    = match App.last_limit es acc with Some v => JStr v | None => JNum 12 end.
Proof.
  revert a acc. induction es as [|e es IH]; intros a acc H; [exact H|].
  destruct e as [v|v]; simpl; apply IH; [exact H | reflexivity].
Qed.

(** C9, as amended.  After any sequence of edits the controller's limit is
    the number 12 if the result-count input was never edited, and otherwise
    the text of the latest edit of that input, as typed and unchecked. *)
Theorem limit_is_last_edit_unvalidated (es : list App.Edit) :
  App.limit (App.edits App.initial es)
    = match App.last_limit es None with
      | Some v => JStr v
      | None => JNum 12
      end.
Proof.
  apply limit_after_edits with (acc := None).
  reflexivity.
Qed.

(** C9 as stated fails: typing 0 into the result-count input leaves the
    limit at the text "0", which is no integer that is at least 1. *)
Lemma limit_can_be_zero :
  App.limit (App.edits App.initial [App.EditLimit "0"]) = JStr "0" /\
  App.integer_ge_1 (App.limit (App.edits App.initial [App.EditLimit "0"]))
    = false.
Proof. split; reflexivity. Qed.

(** ** Further properties of the deck viewer *)

Lemma update_request_inv (f : Request -> Request) (k rid : nat)
    (rs : list Request) (r' : Request) :
  nth_error (update_request k f rs) rid = Some r' ->
  exists r, nth_error rs rid = Some r /\
            ((k <> rid /\ r' = r) \/ (k = rid /\ r' = f r)).
Proof.
  intro H. destruct (Nat.eq_dec k rid) as [->|Hne].
  - destruct (nth_error rs rid) as [r|] eqn:E.
    + rewrite (update_request_same f _ _ _ E) in H. inversion H. eauto.
    + unfold update_request in H. rewrite E in H. congruence.
  - rewrite update_request_other in H by exact Hne. eauto.
Qed.

Lemma all_stale_run_cleanup (w : World) :
  single_writer w -> all_stale (run_cleanup w).
Proof.
  intros Hsw. unfold run_cleanup. destruct (cleanup w) as [k|] eqn:Hc.
  - split; [reflexivity|]. simpl. intros rid r' H.
    apply update_request_inv in H as (r & Hr & [[Hne ->]|[-> ->]]);
      [|reflexivity].
    destruct (ignore r) eqn:Hi; [reflexivity|].
    pose proof (Hsw _ _ Hr Hi) as Hk. congruence.
  - split; [exact Hc|]. intros rid r Hr.
    destruct (ignore r) eqn:Hi; [reflexivity|].
    pose proof (Hsw _ _ Hr Hi). congruence.
Qed.

Lemma viewer_inv_run_effect (v : JSValue) (w : World) :
  all_stale w -> viewer_inv (run_effect v w).
Proof.
  intros [Hc Hall]. unfold run_effect.
  destruct (invalid_endpoint v); split.
  - intros rid r Hr Hi. simpl in Hr. rewrite (Hall _ _ Hr) in Hi. discriminate.
  - intros rid Hrid. discriminate.
  - intros rid r Hr Hi. simpl in *.
    destruct (Nat.lt_ge_cases rid (List.length (requests w))) as [Hlt|Hge].
    + rewrite nth_error_app1 in Hr by exact Hlt.
      rewrite (Hall _ _ Hr) in Hi. discriminate.
    + rewrite nth_error_app2 in Hr by exact Hge.
      destruct (rid - List.length (requests w)) as [|n] eqn:E;
        [f_equal; lia | destruct n; discriminate].
  - intros rid Hrid. simpl in *. inversion Hrid; subst.
    exists (mkRequest v false AwaitFetch).
    rewrite nth_error_app2, Nat.sub_diag by lia. simpl.
    repeat split; auto. discriminate.
Qed.

(** One resumption of request [k]: its phase moves to [p], the state
    becomes [s'].  A stale request leaves loading and error alone; one that
    may write either finishes with the loading flag cleared or moves on
    without touching them. *)
Lemma viewer_inv_resolve (w : World) (k : nat) (rq : Request) (p : Phase)
    (s' : State) (o' : nat) :
  viewer_inv w ->
  nth_error (requests w) k = Some rq ->
  phase rq <> Finished ->
  (ignore rq = true ->
     loading s' = loading (st w) /\ error s' = error (st w)) ->
  (ignore rq = false ->
     (p = Finished /\ loading s' = false) \/
     (p <> Finished /\ loading s' = loading (st w) /\ error s' = error (st w))) ->
  viewer_inv
    (mkWorld s' (update_request k (set_phase p) (requests w)) (cleanup w) o').
Proof.
  intros [Hsw Hlt] Hk Hph Hstale Hlive. split.
  - intros rid r' Hr' Hi. simpl in *.
    apply update_request_inv in Hr' as (r & Hr & [[_ ->]|[-> ->]]);
      now apply (Hsw _ _ Hr).
  - intros rid Hc. simpl in *.
    destruct (Hlt _ Hc) as (r0 & Hr0 & Hi0 & Hpend & Hdone).
    destruct (Nat.eq_dec k rid) as [->|Hne].
    + assert (rq = r0) by congruence. subst r0.
      exists (set_phase p rq).
      rewrite (update_request_same _ _ _ _ Hk).
      split; [reflexivity|]. split; [exact Hi0|]. simpl.
      destruct (Hlive Hi0) as [[-> Hl]|(Hp & Hl & He)].
      * split; [congruence | auto].
      * rewrite Hl, He. split; [intros _; now apply Hpend | contradiction].
    + exists r0. rewrite update_request_other by exact Hne.
      split; [exact Hr0|]. split; [exact Hi0|].
      destruct (ignore rq) eqn:Hi.
      * destruct (Hstale eq_refl) as [-> ->]. auto.
      * pose proof (Hsw _ _ Hk Hi). congruence.
Qed.

Lemma catch_finally_stale (r : Request) (e : JSError) (s : State) :
  ignore r = true -> catch_finally r e s = s.
Proof. intro H. unfold catch_finally. now rewrite H. Qed.

Lemma catch_finally_live (r : Request) (e : JSError) (s : State) :
  ignore r = false ->
  catch_finally r e s = setLoading false (setError (catch_text e) s).
Proof. intro H. unfold catch_finally. now rewrite H. Qed.

Lemma viewer_inv_caught (w : World) (k : nat) (rq : Request) (e : JSError) :
  viewer_inv w ->
  nth_error (requests w) k = Some rq ->
  phase rq <> Finished ->
  viewer_inv (finish k w (catch_finally rq e (st w)) (next_oid w)).
Proof.
  intros H Hk Hph. unfold finish.
  apply viewer_inv_resolve with (rq := rq); auto.
  - intro Hi. now rewrite catch_finally_stale.
  - intro Hi. left. now rewrite catch_finally_live.
Qed.

Lemma handleVote_loading (cur : option GifItem) (kind : JSValue) (s : State) :
  loading (handleVote cur kind s) = loading s.
Proof.
  unfold handleVote. destruct cur; [|reflexivity].
  now destruct (JS.strict_eq_str kind "like").
Qed.

Lemma handleVote_error (cur : option GifItem) (kind : JSValue) (s : State) :
  error (handleVote cur kind s) = error s.
Proof.
  unfold handleVote. destruct cur; [|reflexivity].
  now destruct (JS.strict_eq_str kind "like").
Qed.

Lemma handleVotes_loading_error (cur : option GifItem) (kinds : list JSValue)
    (s : State) :
  loading (handleVotes cur kinds s) = loading s /\
  error (handleVotes cur kinds s) = error s.
Proof.
  revert s. induction kinds as [|k kinds IH]; intro s; [now split|].
  simpl. destruct (IH (handleVote cur k s)) as [-> ->].
  now rewrite handleVote_loading, handleVote_error.
Qed.

Lemma viewer_inv_step (w : World) (ev : Event) :
  viewer_inv w -> viewer_inv (step w ev).
Proof.
  intros H. destruct ev as [v| |k r|k r|kind|kinds]; simpl.
  - apply viewer_inv_run_effect, all_stale_run_cleanup, H.
  - destruct (all_stale_run_cleanup w (proj1 H)) as [Hc Hall]. split.
    + intros rid r Hr Hi. rewrite (Hall _ _ Hr) in Hi. discriminate.
    + intros rid Hrid. congruence.
  - unfold fetch_settled.
    destruct (nth_error (requests w) k) as [rq|] eqn:Hk; [|exact H].
    destruct (phase rq) eqn:Hph; try exact H.
    destruct r as [res|e]; [destruct (negb (ok res))|].
    + apply viewer_inv_caught; auto. congruence.
    + apply viewer_inv_resolve with (rq := rq); auto; try congruence.
      intros _. right. repeat split; auto. discriminate.
    + apply viewer_inv_caught; auto. congruence.
  - unfold json_settled.
    destruct (nth_error (requests w) k) as [rq|] eqn:Hk; [|exact H].
    destruct (phase rq) eqn:Hph; try exact H.
    destruct r as [json|e]; [|apply viewer_inv_caught; auto; congruence].
    destruct (ignore rq) eqn:Hi.
    + unfold finish. apply viewer_inv_resolve with (rq := rq); auto;
        congruence.
    + destruct (normalize (next_oid w) json) as [mapped|e];
        [|apply viewer_inv_caught; auto; congruence].
      unfold finish. apply viewer_inv_resolve with (rq := rq); auto;
        try congruence; try (intros _; left; split; reflexivity).
  - destruct H as [Hsw Hlt]. split; [exact Hsw|].
    intros rid Hc. simpl in *.
    destruct (Hlt _ Hc) as (r0 & Hr0 & Hi0 & Hpend & Hdone).
    exists r0. rewrite handleVote_loading, handleVote_error. auto.
  - destruct H as [Hsw Hlt]. split; [exact Hsw|].
    intros rid Hc. simpl in *.
    destruct (Hlt _ Hc) as (r0 & Hr0 & Hi0 & Hpend & Hdone).
    destruct (handleVotes_loading_error (current (st w)) kinds (st w))
      as [-> ->].
    exists r0. auto.
Qed.

Lemma viewer_inv_reachable (history : list Event) :
  viewer_inv (run initial_world history).
Proof.
  assert (H : forall evs w, viewer_inv w -> viewer_inv (run w evs)).
  { induction evs as [|ev evs IH]; intros w Hw; [exact Hw|].
    simpl. apply IH. now apply viewer_inv_step. }
  apply H. split.
  - intros rid r Hr. destruct rid; discriminate.
  - intros rid Hc. discriminate.
Qed.

(** X1.  An [apiKey] that passes the check starts a fetch: the loading flag
    is raised, the error is cleared, deck, pointer and vote lists stay as
    they are (the old deck remains on display), and exactly one request is
    added, for that endpoint, waiting at [await fetch], as the one React
    holds the cleanup of.  Such an [apiKey] is a non-empty string. *)
Theorem valid_endpoint_starts_fetch (w : World) (v : JSValue) :
  invalid_endpoint v = false ->
  let w' := step w (SetEndpoint v) in
  let rid := List.length (requests w) in
  (exists s, v = JStr s /\ s <> "") /\
  loading (st w') = true /\
  error (st w') = "" /\
  gifs (st w') = gifs (st w) /\
  idx (st w') = idx (st w) /\
  liked (st w') = liked (st w) /\
  disliked (st w') = disliked (st w) /\
  List.length (requests w') = S rid /\
  nth_error (requests w') rid = Some (mkRequest v false AwaitFetch) /\
  cleanup w' = Some rid.
Proof.
  intros Hv. split.
  - destruct v as [| | | |s| |];
      try (assert (invalid_endpoint_other : forall b, b || true = true)
             by (intros; apply orb_true_r);
           unfold invalid_endpoint in Hv; simpl in Hv;
           rewrite ?invalid_endpoint_other in Hv; discriminate).
    exists s. split; [reflexivity|]. intros ->. discriminate.
  - simpl. unfold run_effect. rewrite Hv. simpl.
    rewrite run_cleanup_st, length_app, run_cleanup_length. simpl.
    repeat (split; [reflexivity|]). split; [lia|]. split; [|reflexivity].
    rewrite nth_error_app2 by (rewrite run_cleanup_length; lia).
    now rewrite run_cleanup_length, Nat.sub_diag.
Qed.

Lemma valid_endpoint_starts_fetch_witness :
  let w' := step Sample.loaded (SetEndpoint Sample.search2) in
  invalid_endpoint Sample.search2 = false /\
  loading (st w') = true /\
  error (st w') = "" /\
  gifs (st w') = gifs (st Sample.loaded) /\
  nth_error (requests w') 1 = Some (mkRequest Sample.search2 false AwaitFetch) /\
  cleanup w' = Some 1.
Proof.
  split; [reflexivity|].
  destruct (valid_endpoint_starts_fetch Sample.loaded Sample.search2 eq_refl)
    as (_ & Hl & He & Hg & _ & _ & _ & _ & Hn & Hc).
  split; [exact Hl|]. split; [exact He|]. split; [exact Hg|].
  split; [exact Hn | exact Hc].
Defined.

(** X2.  Whatever has happened since the mount, a request other than the
    one React holds the cleanup of has its [ignore] flag raised, and its
    resumption, with any outcome, changes none of the six state cells: at
    most one request can ever write. *)
Theorem only_current_request_may_write
    (history : list Event) (rid : nat) (r : Request) (res : Event) :
  nth_error (requests (run initial_world history)) rid = Some r ->
  cleanup (run initial_world history) <> Some rid ->
  resolves rid res = true ->
  ignore r = true /\
  st (step (run initial_world history) res) = st (run initial_world history).
Proof.
  intros Hr Hc Hres.
  assert (Hi : ignore r = true).
  { destruct (ignore r) eqn:Hi; [reflexivity|].
    destruct (viewer_inv_reachable history) as [Hsw _].
    elim Hc. now apply (Hsw _ _ Hr). }
  split; [exact Hi|].
  apply stale_resolution with (rid := rid); [|exact Hres].
  exists r. now split.
Qed.

Lemma only_current_request_may_write_witness :
  let history := [SetEndpoint Sample.search; SetEndpoint Sample.search2;
                  FetchSettled 1 (Ok (mkResponse 200));
                  JsonSettled 1 (Ok Sample.cats); Vote (JStr "like")] in
  let w := run initial_world history in
  let r := mkRequest Sample.search true AwaitFetch in
  let res := FetchSettled 0 (Ok (mkResponse 500)) in
  nth_error (requests w) 0 = Some r /\
  cleanup w <> Some 0 /\
  resolves 0 res = true /\
  ignore r = true /\
  st (step w res) = st w.
Proof.
  split; [reflexivity|]. split; [discriminate|]. split; [reflexivity|].
  apply (only_current_request_may_write
           [SetEndpoint Sample.search; SetEndpoint Sample.search2;
            FetchSettled 1 (Ok (mkResponse 200));
            JsonSettled 1 (Ok Sample.cats); Vote (JStr "like")]
           0 (mkRequest Sample.search true AwaitFetch)
           (FetchSettled 0 (Ok (mkResponse 500))));
    [reflexivity | discriminate | reflexivity].
Defined.

(** X3.  Whatever has happened since the mount, the request React holds the
    cleanup of exists and may write, and the loading flag tells its
    progress: while it is pending the flag is up, no error is set and the
    "No more GIFs" hint is hidden; once it has finished the flag is down. *)
Theorem loading_reflects_current_request (history : list Event) (rid : nat) :
  cleanup (run initial_world history) = Some rid ->
  exists r,
    nth_error (requests (run initial_world history)) rid = Some r /\
    ignore r = false /\
    (phase r <> Finished ->
       loading (st (run initial_world history)) = true /\
       error (st (run initial_world history)) = "" /\
       View.shows_no_more (st (run initial_world history)) = false) /\
    (phase r = Finished ->
       loading (st (run initial_world history)) = false).
Proof.
  intros Hc.
  destruct (viewer_inv_reachable history) as [_ Hlt].
  destruct (Hlt _ Hc) as (r & Hr & Hi & Hpend & Hdone).
  exists r. split; [exact Hr|]. split; [exact Hi|]. split; [|exact Hdone].
  intros Hp. destruct (Hpend Hp) as [Hl He].
  split; [exact Hl|]. split; [exact He|].
  unfold View.shows_no_more. rewrite Hl.
  now destruct (current (st (run initial_world history))).
Qed.

Lemma loading_reflects_current_request_witness :
  let history := [SetEndpoint Sample.search; Vote (JStr "like");
                  FetchSettled 0 (Ok (mkResponse 200))] in
  let w := run initial_world history in
  cleanup w = Some 0 /\
  exists r,
    nth_error (requests w) 0 = Some r /\
    ignore r = false /\
    (phase r <> Finished ->
       loading (st w) = true /\ error (st w) = "" /\
       View.shows_no_more (st w) = false) /\
    (phase r = Finished -> loading (st w) = false).
Proof.
  split; [reflexivity|].
  apply (loading_reflects_current_request
           [SetEndpoint Sample.search; Vote (JStr "like");
            FetchSettled 0 (Ok (mkResponse 200))] 0).
  reflexivity.
Defined.

Lemma all_stale_finish (k : nat) (w : World) (s : State) (o : nat) :
  all_stale w -> all_stale (finish k w s o).
Proof.
  intros [Hc Hall]. split; [exact Hc|]. simpl. intros rid r' H.
  apply update_request_inv in H as (r & Hr & [[_ ->]|[-> ->]]);
    now apply (Hall _ _ Hr).
Qed.

(** With no request left that may write, an event that starts no fetch
    leaves the loading flag and the error where they are, unless it is an
    invalid [apiKey], which sets the fixed message. *)
Lemma all_stale_step (w : World) (ev : Event) :
  all_stale w -> restarts ev = false ->
  all_stale (step w ev) /\
  loading (st (step w ev)) = loading (st w) /\
  (error (st (step w ev)) = error (st w) \/
   error (st (step w ev)) = invalid_message).
Proof.
  intros Hs Hq. pose proof Hs as [Hc Hall].
  assert (Hrc : run_cleanup w = w) by (unfold run_cleanup; now rewrite Hc).
  destruct ev as [v| |k r|k r|kind|kinds]; simpl in *.
  - apply negb_false_iff in Hq. rewrite Hrc. unfold run_effect. rewrite Hq.
    simpl. repeat split; auto.
  - rewrite Hrc. auto.
  - unfold fetch_settled.
    destruct (nth_error (requests w) k) as [rq|] eqn:Hk; [|auto].
    pose proof (Hall _ _ Hk) as Hi.
    destruct (phase rq); auto.
    destruct r as [res|e]; [destruct (negb (ok res))|]; simpl;
      rewrite ?catch_finally_stale by exact Hi;
      (split; [|auto]); try now apply all_stale_finish.
    split; [exact Hc|]. simpl. intros rid r' H.
    apply update_request_inv in H as (r0 & Hr0 & [[_ ->]|[-> ->]]);
      now apply (Hall _ _ Hr0).
  - unfold json_settled.
    destruct (nth_error (requests w) k) as [rq|] eqn:Hk; [|auto].
    pose proof (Hall _ _ Hk) as Hi.
    destruct (phase rq); auto.
    destruct r as [json|e]; rewrite ?Hi; simpl;
      rewrite ?catch_finally_stale by exact Hi;
      (split; [|auto]); now apply all_stale_finish.
  - rewrite handleVote_loading, handleVote_error. auto.
  - destruct (handleVotes_loading_error (current (st w)) kinds (st w))
      as [-> ->].
    auto.
Qed.

(** X4.  A fetch is pending (the loading flag is up) when an [apiKey] that
    fails the check arrives.  From then on, through votes, settlements,
    further invalid [apiKey]s and the unmount, the loading flag stays up,
    the error stays the "Invalid endpoint" message and the "No more GIFs"
    hint stays hidden: only a valid [apiKey] ends it. *)
Theorem invalid_endpoint_leaves_loading_up
    (history : list Event) (v : JSValue) (evs : list Event) :
  loading (st (run initial_world history)) = true ->
  invalid_endpoint v = true ->
  forallb (fun ev => negb (restarts ev)) evs = true ->
  let w' := run (step (run initial_world history) (SetEndpoint v)) evs in
  loading (st w') = true /\
  error (st w') = invalid_message /\
  View.shows_no_more (st w') = false.
Proof.
  intros Hl Hv Hq w'.
  assert (H0 : all_stale (step (run initial_world history) (SetEndpoint v)) /\
               loading (st (step (run initial_world history) (SetEndpoint v)))
                 = true /\
               error (st (step (run initial_world history) (SetEndpoint v)))
                 = invalid_message).
  { destruct (viewer_inv_reachable history) as [Hsw _].
    destruct (all_stale_run_cleanup _ Hsw) as [Hc Hall].
    simpl. unfold run_effect. rewrite Hv. simpl.
    rewrite run_cleanup_st. repeat split; auto. }
  assert (H : all_stale w' /\ loading (st w') = true /\
              error (st w') = invalid_message).
  { subst w'. revert H0 Hq.
    generalize (step (run initial_world history) (SetEndpoint v)).
    induction evs as [|ev evs IH]; intros w (Hs & Hlw & He) Hq; [auto|].
    simpl in Hq. apply andb_true_iff in Hq as [Hev Hq].
    apply negb_true_iff in Hev.
    destruct (all_stale_step w ev Hs Hev) as (Hs' & Hl' & He').
    simpl. apply IH; [|exact Hq].
    split; [exact Hs'|]. split; [congruence|].
    destruct He' as [He'|He']; congruence. }
  destruct H as (_ & Hl' & He'). split; [exact Hl'|]. split; [exact He'|].
  unfold View.shows_no_more. rewrite Hl'. now destruct (current (st w')).
Qed.

Lemma invalid_endpoint_leaves_loading_up_witness :
  let history := [SetEndpoint Sample.search] in
  let evs := [FetchSettled 0 (Ok (mkResponse 200));
              JsonSettled 0 (Ok Sample.cats); Vote (JStr "like"); Unmount] in
  let w' := run (step (run initial_world history) (SetEndpoint (JStr ""))) evs in
  loading (st (run initial_world history)) = true /\
  invalid_endpoint (JStr "") = true /\
  forallb (fun ev => negb (restarts ev)) evs = true /\
  loading (st w') = true /\
  error (st w') = invalid_message /\
  View.shows_no_more (st w') = false.
Proof.
  do 3 (split; [reflexivity|]).
  apply (invalid_endpoint_leaves_loading_up
           [SetEndpoint Sample.search] (JStr "")
           [FetchSettled 0 (Ok (mkResponse 200));
            JsonSettled 0 (Ok Sample.cats); Vote (JStr "like"); Unmount]);
    reflexivity.
Defined.

(** ** Stale resolutions leave no trace *)

Section Agreement.

Variable f : Request -> Request.
Hypothesis f_keeps : forall x, ignore x = true -> ignore (f x) = true.

Lemma agree_refl (rs : list Request) : requests_agree rs rs.
Proof. split; [reflexivity|]. intros rid r1 r2 H1 H2. left. congruence. Qed.

Lemma agree_sym (rs1 rs2 : list Request) :
  requests_agree rs1 rs2 -> requests_agree rs2 rs1.
Proof.
  intros [Hl H]. split; [now symmetry|].
  intros rid r1 r2 H1 H2. destruct (H _ _ _ H2 H1) as [->|[? ?]]; auto.
Qed.

Lemma agree_nth (rs1 rs2 : list Request) (k : nat) (r1 : Request) :
  requests_agree rs1 rs2 -> nth_error rs1 k = Some r1 ->
  exists r2, nth_error rs2 k = Some r2.
Proof.
  intros [Hl _] H1. destruct (nth_error rs2 k) as [r2|] eqn:E; [eauto|].
  apply nth_error_None in E.
  assert (k < List.length rs1) by (apply nth_error_Some; congruence). lia.
Qed.

Lemma agree_trans (rs1 rs2 rs3 : list Request) :
  requests_agree rs1 rs2 -> requests_agree rs2 rs3 -> requests_agree rs1 rs3.
Proof.
  intros H12 H23. pose proof H12 as [Hl12 A12]. pose proof H23 as [Hl23 A23].
  split; [congruence|]. intros rid r1 r3 H1 H3.
  destruct (agree_nth _ _ _ _ H12 H1) as [r2 H2].
  destruct (A12 _ _ _ H1 H2) as [->|[? ?]];
    destruct (A23 _ _ _ H2 H3) as [->|[? ?]]; auto.
Qed.

Lemma agree_update_both (k : nat) (rs1 rs2 : list Request) :
  requests_agree rs1 rs2 ->
  requests_agree (update_request k f rs1) (update_request k f rs2).
Proof.
  intros [Hl A]. split; [now rewrite !update_request_length|].
  intros rid r1' r2' H1 H2.
  apply update_request_inv in H1 as (r1 & H1 & [[Hne ->]|[-> ->]]);
    apply update_request_inv in H2 as (r2 & H2 & [[Hne2 ->]|[Heq ->]]);
    try congruence; destruct (A _ _ _ H1 H2) as [->|[? ?]]; auto.
Qed.

Lemma agree_update_left (k : nat) (rs1 rs2 : list Request) :
  requests_agree rs1 rs2 ->
  (forall r, nth_error rs1 k = Some r -> ignore r = true) ->
  requests_agree (update_request k f rs1) rs2.
Proof.
  intros [Hl A] Hk. split; [now rewrite update_request_length|].
  intros rid r1' r2 H1 H2.
  apply update_request_inv in H1 as (r1 & H1 & [[Hne ->]|[-> ->]]);
    [now apply (A rid)|].
  pose proof (Hk _ H1) as Hi. right.
  destruct (A _ _ _ H1 H2) as [<-|[? ?]]; auto.
Qed.

Lemma agree_app (x : Request) (rs1 rs2 : list Request) :
  requests_agree rs1 rs2 -> requests_agree (rs1 ++ [x]) (rs2 ++ [x]).
Proof.
  intros [Hl A]. split; [rewrite !length_app; simpl; lia|].
  intros rid r1 r2 H1 H2.
  destruct (Nat.lt_ge_cases rid (List.length rs1)) as [Hlt|Hge].
  - rewrite nth_error_app1 in H1 by exact Hlt.
    rewrite nth_error_app1 in H2 by lia. now apply (A rid).
  - rewrite nth_error_app2 in H1 by exact Hge.
    rewrite nth_error_app2 in H2 by lia. rewrite <- Hl in H2.
    left. congruence.
Qed.

End Agreement.

Lemma sbs_intro (w1 w2 : World) :
  st w1 = st w2 -> cleanup w1 = cleanup w2 -> next_oid w1 = next_oid w2 ->
  requests_agree (requests w1) (requests w2) ->
  same_but_stale w1 w2.
Proof. unfold same_but_stale. auto. Qed.

Lemma sbs_refl (w : World) : same_but_stale w w.
Proof. apply sbs_intro; auto using agree_refl. Qed.

Lemma sbs_trans (w1 w2 w3 : World) :
  same_but_stale w1 w2 -> same_but_stale w2 w3 -> same_but_stale w1 w3.
Proof.
  intros (Hs & Hc & Ho & Ha) (Hs' & Hc' & Ho' & Ha').
  apply sbs_intro; try congruence. eapply agree_trans; eauto.
Qed.

(** What one resumption of request [rq] does, told from the request, the
    state and the allocation counter alone: nothing, or a new state, phase
    and counter.  For a stale request the state and the counter are the old
    ones. *)
Lemma resumption_effect (ev : Event) (k : nat) (rq : Request) (s : State)
    (o : nat) :
  resolves k ev = true ->
  exists res : option (State * Phase * nat),
    (forall w, st w = s -> next_oid w = o ->
       nth_error (requests w) k = Some rq ->
       step w ev =
       match res with
       | None => w
       | Some (s', p, o') =>
           mkWorld s' (update_request k (set_phase p) (requests w))
                   (cleanup w) o'
       end) /\
    (ignore rq = true -> res = None \/ exists p, res = Some (s, p, o)).
Proof.
  intros Hev. destruct ev as [v| |k' r|k' r|kind|kinds]; try discriminate;
    simpl in Hev; apply Nat.eqb_eq in Hev; subst k'.
  - destruct (phase rq) eqn:Hph;
      try (exists None; split; [|auto]; intros w _ _ Hk; simpl;
           unfold fetch_settled; now rewrite Hk, Hph).
    destruct r as [res|e]; [destruct (negb (ok res)) eqn:Hok|].
    + exists (Some (catch_finally rq
                      (mkError "Error" ("HTTP " ++ JS.decimal (status res))) s,
                    Finished, o)).
      split.
      * intros w <- <- Hk. simpl. unfold fetch_settled.
        now rewrite Hk, Hph, Hok.
      * intro Hi. right. exists Finished. now rewrite catch_finally_stale.
    + exists (Some (s, AwaitJson, o)). split; [|eauto].
      intros w <- <- Hk. simpl. unfold fetch_settled.
      now rewrite Hk, Hph, Hok.
    + exists (Some (catch_finally rq e s, Finished, o)). split.
      * intros w <- <- Hk. simpl. unfold fetch_settled. now rewrite Hk, Hph.
      * intro Hi. right. exists Finished. now rewrite catch_finally_stale.
  - destruct (phase rq) eqn:Hph;
      try (exists None; split; [|auto]; intros w _ _ Hk; simpl;
           unfold json_settled; now rewrite Hk, Hph).
    destruct r as [json|e].
    + destruct (ignore rq) eqn:Hi.
      * exists (Some (s, Finished, o)). split; [|eauto].
        intros w <- <- Hk. simpl. unfold json_settled.
        now rewrite Hk, Hph, Hi.
      * destruct (normalize o json) as [mapped|e] eqn:Hn.
        -- exists (Some (setLoading false (install_deck mapped s), Finished,
                         o + List.length mapped)).
           split; [|discriminate].
           intros w <- <- Hk. simpl. unfold json_settled.
           now rewrite Hk, Hph, Hi, Hn.
        -- exists (Some (catch_finally rq e s, Finished, o)).
           split; [|discriminate].
           intros w <- <- Hk. simpl. unfold json_settled.
           now rewrite Hk, Hph, Hi, Hn.
    + exists (Some (catch_finally rq e s, Finished, o)). split.
      * intros w <- <- Hk. simpl. unfold json_settled. now rewrite Hk, Hph.
      * intro Hi. right. exists Finished. now rewrite catch_finally_stale.
Qed.

Lemma resolves_absent (ev : Event) (k : nat) (w : World) :
  resolves k ev = true -> nth_error (requests w) k = None -> step w ev = w.
Proof.
  intros Hev Hk. destruct ev as [v| |k' r|k' r|kind|kinds]; try discriminate;
    simpl in Hev; apply Nat.eqb_eq in Hev; subst k'; simpl.
  - unfold fetch_settled. now rewrite Hk.
  - unfold json_settled. now rewrite Hk.
Qed.

Lemma sbs_run_cleanup (w1 w2 : World) :
  same_but_stale w1 w2 -> same_but_stale (run_cleanup w1) (run_cleanup w2).
Proof.
  intros (Hs & Hc & Ho & Ha). unfold run_cleanup. rewrite <- Hc.
  destruct (cleanup w1) eqn:E; apply sbs_intro; simpl; auto;
    try congruence.
  apply agree_update_both; auto using set_ignore_keeps.
Qed.

Lemma sbs_run_effect (v : JSValue) (w1 w2 : World) :
  same_but_stale w1 w2 -> same_but_stale (run_effect v w1) (run_effect v w2).
Proof.
  intros (Hs & Hc & Ho & Ha). unfold run_effect.
  destruct (invalid_endpoint v); apply sbs_intro; simpl; auto;
    try (now rewrite Hs); try (f_equal; apply Ha).
  now apply agree_app.
Qed.

Lemma sbs_stale_update (w1 w2 : World) (k : nat) (r1 r2 : Request)
    (res1 res2 : option (State * Phase * nat)) :
  same_but_stale w1 w2 ->
  nth_error (requests w1) k = Some r1 -> ignore r1 = true ->
  nth_error (requests w2) k = Some r2 -> ignore r2 = true ->
  (res1 = None \/ exists p, res1 = Some (st w1, p, next_oid w1)) ->
  (res2 = None \/ exists p, res2 = Some (st w2, p, next_oid w2)) ->
  same_but_stale
    match res1 with
    | None => w1
    | Some (s', p, o') =>
        mkWorld s' (update_request k (set_phase p) (requests w1))
                (cleanup w1) o'
    end
    match res2 with
    | None => w2
    | Some (s', p, o') =>
        mkWorld s' (update_request k (set_phase p) (requests w2))
                (cleanup w2) o'
    end.
Proof.
  intros (Hs & Hc & Ho & Ha) H1 Hi1 H2 Hi2 S1 S2.
  assert (L : forall p, requests_agree
                (update_request k (set_phase p) (requests w1)) (requests w2)).
  { intro p. apply agree_update_left; auto using set_phase_keeps.
    intros r Hr. congruence. }
  assert (R : forall p, requests_agree
                (requests w1) (update_request k (set_phase p) (requests w2))).
  { intro p. apply agree_sym, agree_update_left;
      auto using set_phase_keeps, agree_sym.
    intros r Hr. congruence. }
  assert (B : forall p q, requests_agree
                (update_request k (set_phase p) (requests w1))
                (update_request k (set_phase q) (requests w2))).
  { intros p q. apply agree_update_left; auto using set_phase_keeps.
    intros r Hr. congruence. }
  destruct S1 as [->|[p1 ->]], S2 as [->|[p2 ->]];
    apply sbs_intro; simpl; auto.
Qed.

Lemma sbs_settle (w1 w2 : World) (ev : Event) (k : nat) :
  resolves k ev = true ->
  same_but_stale w1 w2 -> same_but_stale (step w1 ev) (step w2 ev).
Proof.
  intros Hev H. pose proof H as (Hs & Hc & Ho & Ha).
  destruct (nth_error (requests w1) k) as [r1|] eqn:H1.
  - destruct (agree_nth _ _ _ _ Ha H1) as [r2 H2].
    destruct (proj2 Ha _ _ _ H1 H2) as [<-|[Hi1 Hi2]].
    + destruct (resumption_effect ev k r1 (st w1) (next_oid w1) Hev)
        as (res & E & _).
      rewrite (E w1 eq_refl eq_refl H1).
      rewrite (E w2 (eq_sym Hs) (eq_sym Ho) H2).
      destruct res as [[[s' p] o']|]; [|exact H].
      apply sbs_intro; simpl; auto.
      apply agree_update_both; auto using set_phase_keeps.
    + destruct (resumption_effect ev k r1 (st w1) (next_oid w1) Hev)
        as (res1 & E1 & S1).
      destruct (resumption_effect ev k r2 (st w2) (next_oid w2) Hev)
        as (res2 & E2 & S2).
      rewrite (E1 w1 eq_refl eq_refl H1), (E2 w2 eq_refl eq_refl H2).
      eapply sbs_stale_update; eauto.
  - assert (H2 : nth_error (requests w2) k = None).
    { apply nth_error_None. apply nth_error_None in H1.
      destruct Ha as [Hl _]. lia. }
    now rewrite (resolves_absent _ _ _ Hev H1), (resolves_absent _ _ _ Hev H2).
Qed.

Lemma sbs_step (w1 w2 : World) (ev : Event) :
  same_but_stale w1 w2 -> same_but_stale (step w1 ev) (step w2 ev).
Proof.
  intros H. destruct ev as [v| |k r|k r|kind|kinds].
  - now apply sbs_run_effect, sbs_run_cleanup.
  - now apply sbs_run_cleanup.
  - apply sbs_settle with (k := k); [apply Nat.eqb_refl | exact H].
  - apply sbs_settle with (k := k); [apply Nat.eqb_refl | exact H].
  - destruct H as (Hs & Hc & Ho & Ha). apply sbs_intro; simpl; auto.
    now rewrite Hs.
  - destruct H as (Hs & Hc & Ho & Ha). apply sbs_intro; simpl; auto.
    now rewrite Hs.
Qed.

(** Resuming a stale request gives a world that shows the same. *)
Lemma sbs_stale_resolution (rid : nat) (w : World) (ev : Event) :
  stale rid w -> resolves rid ev = true -> same_but_stale (step w ev) w.
Proof.
  intros (r & Hr & Hi) Hev.
  destruct (resumption_effect ev rid r (st w) (next_oid w) Hev)
    as (res & E & S).
  rewrite (E w eq_refl eq_refl Hr).
  destruct (S Hi) as [->|[p ->]]; [apply sbs_refl|].
  apply sbs_intro; simpl; auto.
  apply agree_update_left; auto using set_phase_keeps, agree_refl.
  intros r' Hr'. congruence.
Qed.

Lemma sbs_without_stale_resolutions (rid : nat) (evs : list Event)
    (w1 w2 : World) :
  same_but_stale w1 w2 -> stale rid w1 ->
  same_but_stale (run w1 evs)
                 (run w2 (filter (fun ev => negb (resolves rid ev)) evs)).
Proof.
  revert w1 w2. induction evs as [|ev evs IH]; intros w1 w2 H Hst; [exact H|].
  simpl. destruct (resolves rid ev) eqn:Hev; simpl.
  - apply IH; [|now apply stale_step].
    eapply sbs_trans; [|exact H]. now apply sbs_stale_resolution with (rid := rid).
  - apply IH; [now apply sbs_step | now apply stale_step].
Qed.

(** X5.  Once a request is stale, its resumptions can be struck from any
    later course of events without any difference to the six state cells
    at the end: whenever and in whatever order the responses of superseded
    requests arrive, what is shown is what the other events alone
    produce. *)
Theorem stale_resolutions_leave_no_trace
    (w : World) (rid : nat) (evs : list Event) :
  stale rid w ->
  st (run w evs)
    = st (run w (filter (fun ev => negb (resolves rid ev)) evs)).
Proof.
  intros Hst.
  destruct (sbs_without_stale_resolutions rid evs w w (sbs_refl w) Hst)
    as [Hs _].
  exact Hs.
Qed.

Lemma stale_resolutions_leave_no_trace_witness :
  let w := run initial_world [SetEndpoint Sample.search;
                              SetEndpoint Sample.search2] in
  let evs := [FetchSettled 0 (Ok (mkResponse 200));
              FetchSettled 1 (Ok (mkResponse 200));
              JsonSettled 1 (Ok Sample.cats);
              Vote (JStr "like");
              JsonSettled 0 (Ok Sample.bare)] in
  stale 0 w /\
  st (run w evs)
    = st (run w [FetchSettled 1 (Ok (mkResponse 200));
                 JsonSettled 1 (Ok Sample.cats); Vote (JStr "like")]).
Proof.
  assert (H : stale 0 (run initial_world [SetEndpoint Sample.search;
                                          SetEndpoint Sample.search2])).
  { exists (mkRequest Sample.search true AwaitFetch). split; reflexivity. }
  split; [exact H|].
  exact (stale_resolutions_leave_no_trace _ 0
           [FetchSettled 0 (Ok (mkResponse 200));
            FetchSettled 1 (Ok (mkResponse 200));
            JsonSettled 1 (Ok Sample.cats);
            Vote (JStr "like");
            JsonSettled 0 (Ok Sample.bare)] H).
Defined.

(** ** Further properties of the normalization *)

Lemma mapper_throw (o : nat) (d : JSValue) (e : JSError) :
  mapper o d = Throw e -> e = JS.cannot_read d "id".
Proof.
  intro H. destruct (JS.nullish d) eqn:E.
  - unfold mapper, JS.get in H. rewrite E in H. simpl in H. congruence.
  - destruct (mapper_ok o d E) as (g & Hg & _). congruence.
Qed.

Lemma map_records_throw (ds : list JSValue) (o : nat) (e : JSError) :
  map_records o ds = Throw e ->
  err_name e = "TypeError" /\ err_message e <> "".
Proof.
  revert o. induction ds as [|d ds IH]; intros o H; simpl in H;
    [discriminate|].
  destruct (mapper o d) as [g|e'] eqn:Hg; simpl in H.
  - destruct (map_records (S o) ds) as [gs|e''] eqn:Hgs; simpl in H;
      [discriminate|].
    inversion H; subst. eapply IH; eauto.
  - inversion H; subst. rewrite (mapper_throw _ _ _ Hg).
    split; [reflexivity | discriminate].
Qed.

Lemma normalize_throw (o : nat) (json : JSValue) (e : JSError) :
  normalize o json = Throw e ->
  err_name e = "TypeError" /\ err_message e <> "".
Proof.
  unfold normalize.
  destruct (if JS.truthy (JS.get_opt json "data")
            then JS.get_opt json "data" else JArr []);
    try (intro H; inversion H; split; [reflexivity | discriminate]).
  apply map_records_throw.
Qed.

(** X6.  Normalization either goes through or throws, and which one is
    decided by the shape of the body alone: when [data] is absent (or
    falsy) or an array without [null] and [undefined] records, the result
    is a list of items that are fresh objects, numbered consecutively;
    otherwise ([data] truthy but no array, or a [null] record) a
    [TypeError] is thrown. *)
Theorem normalize_throws_exactly_on_malformed (o : nat) (json : JSValue) :
  (well_shaped json = true /\
   exists items,
     normalize o json = Ok items /\
     map oid items = seq o (List.length items)) \/
  (well_shaped json = false /\
   exists e, normalize o json = Throw e /\ err_name e = "TypeError").
Proof.
  destruct (well_shaped json) eqn:W.
  - left. split; [reflexivity|].
    destruct (proj2 (normalize_ok_iff o json) W) as [items Hn].
    exists items. split; [exact Hn|].
    unfold normalize in Hn.
    destruct (if JS.truthy (JS.get_opt json "data")
              then JS.get_opt json "data" else JArr []); try discriminate.
    now apply map_records_shape in Hn.
  - right. split; [reflexivity|].
    destruct (normalize o json) as [items|e] eqn:Hn.
    + assert (well_shaped json = true)
        by (apply (normalize_ok_iff o json); eauto).
      congruence.
    + exists e. split; [reflexivity|]. now apply normalize_throw in Hn.
Qed.

Lemma truthy_title (d : JSValue) (g : GifItem) :
  item_of d g -> JS.truthy (title g) = true.
Proof.
  intros (_ & Ht & _). rewrite Ht.
  now destruct (JS.truthy (JS.read d "title")) eqn:E.
Qed.

(** X7.  In a normalized deck no item has an empty title: the text of the
    card's link and the image's alternative text are the record's title or
    "Untitled", never empty or missing. *)
Theorem normalized_titles_are_never_empty
    (o : nat) (json : JSValue) (items : list GifItem) :
  normalize o json = Ok items ->
  Forall (fun g => JS.truthy (title g) = true /\ title g <> JStr "") items.
Proof.
  intro Hn.
  assert (W : well_shaped json = true)
    by (apply (normalize_ok_iff o json); eauto).
  unfold well_shaped, normalize in *.
  destruct (JS.truthy (JS.get_opt json "data")).
  - destruct (JS.get_opt json "data") as [| | | | |ds|]; try discriminate.
    destruct (map_records_ok ds o W) as (items' & Hi & Hall).
    assert (items' = items) by congruence. subst items'.
    clear - Hall. induction Hall as [|d g ds gs Hdg _ IH]; constructor; auto.
    pose proof (truthy_title _ _ Hdg) as Ht. split; [exact Ht|].
    intro E. rewrite E in Ht. discriminate.
  - inversion Hn. constructor.
Qed.

Lemma normalized_titles_are_never_empty_witness :
  normalize 0 Sample.cats
    = Ok [mkGif 0 (JStr "c1") (JStr "Cat one") (JStr "m1.gif")
                (JStr "https://giphy.com/gifs/c1");
          mkGif 1 (JStr "c2") (JStr "Untitled") (JStr "o2.gif")
                (JStr "https://giphy.com/gifs/c2");
          mkGif 2 (JStr "c3") (JStr "Cat three") (JStr "d3.gif")
                (JStr "https://giphy.com/gifs/c3")] /\
  Forall (fun g => JS.truthy (title g) = true /\ title g <> JStr "")
    [mkGif 0 (JStr "c1") (JStr "Cat one") (JStr "m1.gif")
           (JStr "https://giphy.com/gifs/c1");
     mkGif 1 (JStr "c2") (JStr "Untitled") (JStr "o2.gif")
           (JStr "https://giphy.com/gifs/c2");
     mkGif 2 (JStr "c3") (JStr "Cat three") (JStr "d3.gif")
           (JStr "https://giphy.com/gifs/c3")].
Proof.
  split; [reflexivity|].
  apply (normalized_titles_are_never_empty 0 Sample.cats). reflexivity.
Defined.

(** X8.  A request that may write receives a parsed body that is not well
    shaped.  The [TypeError] of the mapper is caught: its message becomes
    the error, which is therefore displayed, the loading flag is cleared,
    and deck, pointer and vote lists stay as they were. *)
Theorem malformed_body_sets_error_and_keeps_deck
    (w : World) (rid : nat) (rq : Request) (json : JSValue) :
  nth_error (requests w) rid = Some rq ->
  phase rq = AwaitJson ->
  ignore rq = false ->
  well_shaped json = false ->
  let s' := st (step w (JsonSettled rid (Ok json))) in
  exists e,
    normalize (next_oid w) json = Throw e /\
    error s' = err_message e /\
    View.shows_error s' = true /\
    loading s' = false /\
    gifs s' = gifs (st w) /\
    idx s' = idx (st w) /\
    liked s' = liked (st w) /\
    disliked s' = disliked (st w).
Proof.
  intros Hr Hp Hi W.
  destruct (normalize (next_oid w) json) as [items|e] eqn:Hn.
  - assert (well_shaped json = true)
      by (apply (normalize_ok_iff (next_oid w) json); eauto).
    congruence.
  - exists e. split; [reflexivity|].
    destruct (normalize_throw _ _ _ Hn) as [_ Hm].
    apply String.eqb_neq in Hm.
    simpl. unfold json_settled. rewrite Hr, Hp, Hi, Hn. simpl.
    unfold catch_finally, catch_text, View.shows_error. rewrite Hi, Hm. simpl.
    rewrite Hm. repeat split; reflexivity.
Qed.

Lemma malformed_body_sets_error_and_keeps_deck_witness :
  let w := run Sample.refetching [FetchSettled 1 (Ok (mkResponse 200))] in
  let rq := mkRequest Sample.search2 false AwaitJson in
  let json := JObj [("data", JNum 5)] in
  let s' := st (step w (JsonSettled 1 (Ok json))) in
  nth_error (requests w) 1 = Some rq /\
  phase rq = AwaitJson /\
  ignore rq = false /\
  well_shaped json = false /\
  exists e,
    normalize (next_oid w) json = Throw e /\
    error s' = err_message e /\
    View.shows_error s' = true /\
    loading s' = false /\
    gifs s' = gifs (st w) /\
    idx s' = idx (st w) /\
    liked s' = liked (st w) /\
    disliked s' = disliked (st w).
Proof.
  do 4 (split; [reflexivity|]).
  apply (malformed_body_sets_error_and_keeps_deck
           (run Sample.refetching [FetchSettled 1 (Ok (mkResponse 200))])
           1 (mkRequest Sample.search2 false AwaitJson)
           (JObj [("data", JNum 5)]));
    reflexivity.
Defined.

(** ** Runs of votes *)

Lemma skipn_nth_error (A : Type) (l : list A) (n : nat) (x : A) :
  nth_error l n = Some x -> skipn n l = x :: skipn (S n) l.
Proof.
  revert n. induction l as [|a l IH]; intros [|n] H; try discriminate.
  - inversion H. reflexivity.
  - simpl in H. exact (IH _ H).
Qed.

Lemma votes_outcome (kinds : list JSValue) (w : World) :
  let s := st w in
  let s' := st (run w (map Vote kinds)) in
  let rest := skipn (idx s) (gifs s) in
  liked s' = liked s ++ likes rest kinds /\
  disliked s' = disliked s ++ dislikes rest kinds /\
  idx s' = idx s + Nat.min (List.length kinds) (List.length rest) /\
  gifs s' = gifs s /\ loading s' = loading s /\ error s' = error s.
Proof.
  revert w. induction kinds as [|k kinds IH]; intros w; simpl.
  - unfold likes, dislikes. rewrite combine_nil, !app_nil_r.
    repeat split; auto.
  - specialize (IH (step w (Vote k))). simpl in IH.
    destruct IH as (Hl & Hd & Hi & Hg & Hlo & He).
    rewrite Hl, Hd, Hi, Hg, Hlo, He. clear Hl Hd Hi Hg Hlo He.
    unfold handleVote, current.
    destruct (nth_error (gifs (st w)) (idx (st w))) as [c|] eqn:Hc.
    + rewrite (skipn_nth_error _ _ _ _ Hc).
      unfold likes, dislikes.
      destruct (JS.strict_eq_str k "like") eqn:E; simpl;
        rewrite E, Nat.add_1_r; simpl; rewrite <- ?app_assoc; simpl;
        repeat split; auto; lia.
    + apply nth_error_None in Hc.
      rewrite (skipn_all2 _ Hc). unfold likes, dislikes. simpl.
      rewrite Nat.min_0_r. repeat split; auto.
Qed.

(** X9.  A run of votes, each one a click handled by the render of the
    state the one before left, deals the unconsumed part of the deck out
    from the front, one item per vote: the items whose vote was ["like"] are
    appended to the liked list in deck order, the others to the disliked
    list, the pointer advances by the number of items dealt (votes beyond
    the end of the deck are lost), and deck, loading flag and error are as
    before. *)
Theorem votes_deal_out_the_deck (w : World) (kinds : list JSValue) :
  let s := st w in
  let s' := st (run w (map Vote kinds)) in
  let rest := skipn (idx s) (gifs s) in
  liked s' = liked s ++ likes rest kinds /\
  disliked s' = disliked s ++ dislikes rest kinds /\
  idx s' = idx s + Nat.min (List.length kinds) (List.length rest) /\
  gifs s' = gifs s /\ loading s' = loading s /\ error s' = error s.
Proof. intros s s' rest. subst s s' rest. apply votes_outcome. Qed.

Lemma likes_all (items : list GifItem) (kinds : list JSValue) :
  Forall (fun k => k = JStr "like") kinds ->
  List.length items <= List.length kinds ->
  likes items kinds = items /\ dislikes items kinds = [].
Proof.
  revert kinds. induction items as [|g items IH]; intros kinds Hall Hlen.
  - split; reflexivity.
  - destruct kinds as [|k kinds]; [simpl in Hlen; lia|].
    inversion Hall; subst. simpl in Hlen.
    destruct (IH kinds) as [Hl Hd]; [assumption | lia |].
    unfold likes, dislikes in *. simpl. rewrite Hl, Hd. split; reflexivity.
Qed.

(** X10.  On a fresh deck (pointer 0, both lists empty), liking at least as
    many times as the deck has items, each click handled by the render of
    the state the one before left, puts the whole deck, in order, in the
    liked list and nothing in the disliked list; the pointer is the deck
    length, no card is left and, unless a fetch is loading, the "No more
    GIFs" hint is shown. *)
Theorem liking_through_the_deck (w : World) (kinds : list JSValue) :
  idx (st w) = 0 -> liked (st w) = [] -> disliked (st w) = [] ->
  Forall (fun k => k = JStr "like") kinds ->
  List.length (gifs (st w)) <= List.length kinds ->
  let s' := st (run w (map Vote kinds)) in
  liked s' = gifs (st w) /\
  disliked s' = [] /\
  idx s' = List.length (gifs (st w)) /\
  View.card s' = None /\
  View.left s' = 0%Z /\
  View.shows_no_more s' = negb (loading (st w)).
Proof.
  intros Hi Hl Hd Hall Hlen s'.
  destruct (votes_outcome kinds w) as (El & Ed & Ei & Eg & Elo & _).
  fold s' in El, Ed, Ei, Eg, Elo.
  rewrite Hi, Hl, Hd in *. simpl in *.
  destruct (likes_all _ _ Hall Hlen) as [Ll Ld].
  rewrite Ll in El. rewrite Ld in Ed.
  rewrite Nat.min_r in Ei by exact Hlen.
  assert (Hc : current s' = None).
  { unfold current. apply nth_error_None. rewrite Eg, Ei. lia. }
  split; [exact El|]. split; [exact Ed|]. split; [exact Ei|].
  split; [exact Hc|]. split.
  - unfold View.left. rewrite Eg, Ei. lia.
  - unfold View.shows_no_more. now rewrite Hc, Elo.
Qed.

Lemma liking_through_the_deck_witness :
  let w := Sample.loaded in
  let kinds := [JStr "like"; JStr "like"; JStr "like"; JStr "like"] in
  let s' := st (run w (map Vote kinds)) in
  idx (st w) = 0 /\ liked (st w) = [] /\ disliked (st w) = [] /\
  Forall (fun k => k = JStr "like") kinds /\
  List.length (gifs (st w)) <= List.length kinds /\
  liked s' = gifs (st w) /\
  disliked s' = [] /\
  idx s' = 3 /\
  View.card s' = None /\
  View.left s' = 0%Z /\
  View.shows_no_more s' = true.
Proof.
  assert (Hall : Forall (fun k => k = JStr "like")
                   [JStr "like"; JStr "like"; JStr "like"; JStr "like"])
    by (repeat constructor).
  assert (Hlen : List.length (gifs (st Sample.loaded)) <= 4)
    by (vm_compute; lia).
  do 3 (split; [reflexivity|]). split; [exact Hall|]. split; [exact Hlen|].
  exact (liking_through_the_deck Sample.loaded
           [JStr "like"; JStr "like"; JStr "like"; JStr "like"]
           eq_refl eq_refl eq_refl Hall Hlen).
Defined.

(** ** What is displayed *)




(** X12.  For every state, the card is on display exactly when the [Left]
    figure is positive, and the "No more GIFs" hint exactly when it is zero
    and nothing is loading; the hint and the card are never shown
    together. *)
Theorem card_and_hint_follow_left (s : State) :
  (View.card s = None <-> View.left s = 0%Z) /\
  (View.shows_no_more s = true <->
     View.left s = 0%Z /\ View.shows_loading s = false) /\
  (View.shows_no_more s = true -> View.card s = None).
Proof.
  unfold View.card, View.shows_no_more, View.left, View.shows_loading, current.
  destruct (nth_error (gifs s) (idx s)) as [c|] eqn:Hc.
  - assert (idx s < List.length (gifs s))
      by (apply nth_error_Some; congruence).
    repeat split; try discriminate; try lia; intros; try discriminate; lia.
  - apply nth_error_None in Hc.
    repeat split; auto; try lia; intros;
      try (destruct (loading s); simpl in *; intuition congruence).
Qed.

(** ** The query controller and the page *)

Lemma query_after_edits (es : list App.Edit) (a : App.AppState)
    (acc : option string) :
  App.query a = match acc with Some v => v | None => "cool" end ->
  App.query (App.edits a es)
    = match Query.last_query es acc with Some v => v | None => "cool" end.
Proof.
  revert a acc. induction es as [|e es IH]; intros a acc H; [exact H|].
  destruct e as [v|v]; simpl; apply IH; [reflexivity | exact H].
Qed.

Lemma endpoint_valid (q l : string) :
  invalid_endpoint (JStr (Query.base ++ q ++ "&limit=" ++ l)) = false.
Proof. reflexivity. Qed.

(** X13.  After any edits the endpoint handed to the viewer is the fixed
    search URL with the key, followed by the latest text of the search
    input ("cool" before the first edit) and the latest text of the
    result-count input ("12" before the first edit), both verbatim; building
    it never throws, and it always passes the viewer's endpoint check. *)
Theorem endpoint_is_built_from_latest_inputs (es : list App.Edit) :
  let q := match Query.last_query es None with Some v => v | None => "cool" end in
  let l := match App.last_limit es None with Some v => v | None => "12" end in
  let k := (Query.base ++ q ++ "&limit=" ++ l)%string in
  Query.GIPHY_KEY (App.edits App.initial es) = Ok k /\
  invalid_endpoint (JStr k) = false.
Proof.
  intros q l k. split; [|apply endpoint_valid].
  unfold Query.GIPHY_KEY.
  rewrite (limit_after_edits es App.initial None eq_refl).
  rewrite (query_after_edits es App.initial None eq_refl).
  subst q l k. now destruct (App.last_limit es None).
Qed.

Lemma started_request (v : JSValue) (w : World) :
  invalid_endpoint v = false ->
  cleanup (step w (SetEndpoint v)) = Some (List.length (requests w)) /\
  nth_error (requests (step w (SetEndpoint v))) (List.length (requests w))
    = Some (mkRequest v false AwaitFetch) /\
  List.length (requests (step w (SetEndpoint v)))
    = S (List.length (requests w)) /\
  loading (st (step w (SetEndpoint v))) = true.
Proof.
  intro Hv. simpl. unfold run_effect. rewrite Hv. simpl.
  rewrite length_app, run_cleanup_length. simpl.
  split; [reflexivity|]. split; [|split; [lia | reflexivity]].
  rewrite nth_error_app2 by (rewrite run_cleanup_length; lia).
  now rewrite run_cleanup_length, Nat.sub_diag.
Qed.

(** An event that does not supersede keeps the current request current,
    with its endpoint and its [ignore] flag. *)
Lemma current_kept (w : World) (ev : Event) (rid : nat) (r : Request) :
  supersedes ev = false ->
  cleanup w = Some rid ->
  nth_error (requests w) rid = Some r ->
  cleanup (step w ev) = Some rid /\
  exists r', nth_error (requests (step w ev)) rid = Some r' /\
             endpoint r' = endpoint r /\ ignore r' = ignore r.
Proof.
  intros Hq Hc Hr.
  assert (Hsettle : forall k, resolves k ev = true ->
            cleanup (step w ev) = Some rid /\
            exists r', nth_error (requests (step w ev)) rid = Some r' /\
                       endpoint r' = endpoint r /\ ignore r' = ignore r).
  { intros k Hev.
    destruct (nth_error (requests w) k) as [rq|] eqn:Hk.
    - destruct (resumption_effect ev k rq (st w) (next_oid w) Hev)
        as (res & E & _).
      rewrite (E w eq_refl eq_refl Hk).
      destruct res as [[[s' p] o']|]; [|eauto]. simpl.
      split; [exact Hc|].
      destruct (Nat.eq_dec k rid) as [->|Hne].
      + exists (set_phase p r).
        rewrite (update_request_same _ _ _ _ Hr). auto.
      + exists r. rewrite update_request_other by exact Hne. auto.
    - rewrite (resolves_absent _ _ _ Hev Hk). eauto. }
  destruct ev as [v| |k o|k o|kind|kinds]; try discriminate.
  - apply (Hsettle k). apply Nat.eqb_refl.
  - apply (Hsettle k). apply Nat.eqb_refl.
  - simpl. eauto.
  - simpl. eauto.
Qed.

Lemma key_after_edit (a : App.AppState) (e : App.Edit) (k : string) :
  Query.GIPHY_KEY a = Ok k ->
  exists k', Query.GIPHY_KEY (App.onChange a e) = Ok k' /\
             invalid_endpoint (JStr k') = false.
Proof.
  unfold Query.GIPHY_KEY. intro H.
  destruct (Template.to_string (App.limit a)) as [l|err] eqn:El;
    [|discriminate].
  destruct e as [v|v]; simpl; rewrite ?El; simpl;
    eexists; (split; [reflexivity | apply endpoint_valid]).
Qed.

Lemma in_sync_mount : Page.in_sync Page.mount.
Proof.
  unfold Page.in_sync.
  eexists. exists 0. eexists.
  split; [reflexivity|]. split; [reflexivity|]. split; [reflexivity|].
  split; reflexivity.
Qed.

Lemma in_sync_viewer_step (p : Page.Page) (ev : Event) :
  supersedes ev = false ->
  Page.in_sync p ->
  Page.in_sync (Page.mkPage (Page.app p) (step (Page.viewer p) ev)).
Proof.
  intros Hq (k & rid & r & Hk & Hc & Hr & He & Hi).
  destruct (current_kept _ ev _ _ Hq Hc Hr) as (Hc' & r' & Hr' & He' & Hi').
  exists k, rid, r'. simpl. repeat split; auto; congruence.
Qed.

Lemma in_sync_step (p : Page.Page) (ev : Page.PageEvent) :
  Page.in_sync p -> Page.in_sync (Page.page_step p ev).
Proof.
  intros H. destruct ev as [e| | |rid r|rid r]; cbn [Page.page_step];
    try (apply in_sync_viewer_step; [reflexivity | exact H]).
  destruct H as (k & rid & r & Hk & Hc & Hr & He & Hi).
  destruct (key_after_edit _ e _ Hk) as (k' & Hk' & Hv).
  unfold Page.rerender. rewrite Hk', Hk.
  destruct (String.eqb_spec k' k) as [->|Hne].
  - exists k, rid, r. simpl. auto.
  - destruct (started_request (JStr k') (Page.viewer p) Hv)
      as (Hc' & Hr' & _).
    exists k', (List.length (requests (Page.viewer p))),
           (mkRequest (JStr k') false AwaitFetch).
    simpl in *. auto.
Qed.

Lemma in_sync_run (evs : list Page.PageEvent) (p : Page.Page) :
  Page.in_sync p -> Page.in_sync (Page.page_run p evs).
Proof.
  revert p. induction evs as [|ev evs IH]; intros p H; [exact H|].
  simpl. apply IH. now apply in_sync_step.
Qed.

(** X14.  On the page, after any edits, clicks and settlements, the request
    that may write the viewer's state is one for the endpoint [App]
    currently renders: building the endpoint has not thrown, React holds
    the cleanup of a request, that request was started for exactly this
    endpoint and has not been told to stand down.  In particular the
    viewer's "Invalid endpoint" branch, which would leave no cleanup, is
    never taken under [App]. *)
Theorem page_request_matches_inputs (evs : list Page.PageEvent) :
  let p := Page.page_run Page.mount evs in
  exists k rid r,
    Query.GIPHY_KEY (Page.app p) = Ok k /\
    cleanup (Page.viewer p) = Some rid /\
    nth_error (requests (Page.viewer p)) rid = Some r /\
    endpoint r = JStr k /\
    ignore r = false.
Proof.
  intro p. exact (in_sync_run evs Page.mount in_sync_mount).
Qed.

(** X15.  An edit on the page either leaves the endpoint as it is, and then
    the viewer is not touched at all, or changes it, and then at once, with
    no delay and no check of the text, the request that was current is told
    to stand down, exactly one new request is started, and the loading flag
    is up. *)
Theorem edit_refetches_exactly_on_change
    (evs : list Page.PageEvent) (e : App.Edit) :
  let p := Page.page_run Page.mount evs in
  let p' := Page.page_step p (Page.Edit e) in
  (Query.GIPHY_KEY (Page.app p') = Query.GIPHY_KEY (Page.app p) /\
   Page.viewer p' = Page.viewer p) \/
  (Query.GIPHY_KEY (Page.app p') <> Query.GIPHY_KEY (Page.app p) /\
   List.length (requests (Page.viewer p'))
     = S (List.length (requests (Page.viewer p))) /\
   (exists rid, cleanup (Page.viewer p) = Some rid /\
                stale rid (Page.viewer p')) /\
   cleanup (Page.viewer p') = Some (List.length (requests (Page.viewer p))) /\
   loading (st (Page.viewer p')) = true).
Proof.
  intros p p'.
  destruct (in_sync_run evs Page.mount in_sync_mount)
    as (k & rid & r & Hk & Hc & Hr & He & Hi).
  fold p in Hk, Hc, Hr.
  destruct (key_after_edit _ e _ Hk) as (k' & Hk' & Hv).
  subst p'. simpl. unfold Page.rerender. rewrite Hk', Hk.
  destruct (String.eqb_spec k' k) as [->|Hne].
  - left. split; reflexivity.
  - right. split; [congruence|].
    destruct (started_request (JStr k') (Page.viewer p) Hv)
      as (Hc' & _ & Hlen & Hl).
    split; [exact Hlen|]. split; [|split; [exact Hc' | exact Hl]].
    exists rid. split; [exact Hc|].
    apply live_superseded; [|reflexivity].
    split; [exact Hc | eauto].
Qed.

(** X16.  Whatever has happened since the mount, when the current request,
    waiting for its body, receives a well-shaped one, the viewer shows the
    first normalized item as the card (or no card for an empty deck), the
    [Left] figure is the size of the new deck, and neither the loading hint
    nor an error is displayed. *)
Theorem current_success_shows_first_card
    (history : list Event) (rid : nat) (rq : Request) (json : JSValue) :
  cleanup (run initial_world history) = Some rid ->
  nth_error (requests (run initial_world history)) rid = Some rq ->
  phase rq = AwaitJson ->
  well_shaped json = true ->
  let w := run initial_world history in
  let s' := st (step w (JsonSettled rid (Ok json))) in
  exists mapped,
    normalize (next_oid w) json = Ok mapped /\
    View.card s' = hd_error mapped /\
    View.left s' = Z.of_nat (List.length mapped) /\
    View.shows_loading s' = false /\
    View.shows_error s' = false /\
    View.shows_no_more s' = match mapped with [] => true | _ => false end.
Proof.
  intros Hc Hr Hp W w s'.
  destruct (viewer_inv_reachable history) as [_ Hlt].
  destruct (Hlt _ Hc) as (r0 & Hr0 & Hi & Hpend & _).
  fold w in Hr, Hr0, Hpend.
  assert (r0 = rq) by congruence. subst r0.
  destruct Hpend as [_ He]; [congruence|].
  destruct (proj2 (normalize_ok_iff (next_oid w) json) W) as [mapped Hn].
  exists mapped. split; [exact Hn|].
  subst s'. simpl. unfold json_settled. rewrite Hr, Hp, Hi, Hn. simpl.
  unfold View.card, View.left, View.shows_loading, View.shows_error,
    View.shows_no_more, current. simpl. rewrite He. simpl.
  repeat split; try (destruct mapped; reflexivity); lia.
Qed.

Lemma current_success_shows_first_card_witness :
  let history := [SetEndpoint Sample.search;
                  FetchSettled 0 (Ok (mkResponse 200))] in
  let w := run initial_world history in
  let rq := mkRequest Sample.search false AwaitJson in
  let s' := st (step w (JsonSettled 0 (Ok Sample.cats))) in
  cleanup w = Some 0 /\
  nth_error (requests w) 0 = Some rq /\
  phase rq = AwaitJson /\
  well_shaped Sample.cats = true /\
  exists mapped,
    normalize (next_oid w) Sample.cats = Ok mapped /\
    View.card s' = hd_error mapped /\
    View.left s' = Z.of_nat (List.length mapped) /\
    View.shows_loading s' = false /\
    View.shows_error s' = false /\
    View.shows_no_more s' = match mapped with [] => true | _ => false end.
Proof.
  do 4 (split; [reflexivity|]).
  apply (current_success_shows_first_card
           [SetEndpoint Sample.search; FetchSettled 0 (Ok (mkResponse 200))]
           0 (mkRequest Sample.search false AwaitJson) Sample.cats);
    reflexivity.
Defined.

(** ** Votes that share a render *)

Lemma count_likes_le (kinds : list JSValue) :
  count_likes kinds <= List.length kinds.
Proof. unfold count_likes. apply filter_length_le. Qed.

Lemma handleVotes_outcome (c : GifItem) (kinds : list JSValue) (s : State) :
  liked (handleVotes (Some c) kinds s)
    = liked s ++ repeat c (count_likes kinds) /\
  disliked (handleVotes (Some c) kinds s)
    = disliked s ++ repeat c (List.length kinds - count_likes kinds) /\
  idx (handleVotes (Some c) kinds s) = idx s + List.length kinds /\
  gifs (handleVotes (Some c) kinds s) = gifs s.
Proof.
  revert s. induction kinds as [|k kinds IH]; intro s.
  - simpl. rewrite !app_nil_r. repeat split; lia.
  - change (handleVotes (Some c) (k :: kinds) s)
      with (handleVotes (Some c) kinds (handleVote (Some c) k s)).
    destruct (IH (handleVote (Some c) k s)) as (Hl & Hd & Hi & Hg).
    rewrite Hl, Hd, Hi, Hg. clear Hl Hd Hi Hg.
    pose proof (count_likes_le kinds) as Hle.
    unfold handleVote, count_likes in *. simpl.
    destruct (JS.strict_eq_str k "like"); simpl;
      rewrite <- ?app_assoc; simpl.
    + repeat split; try reflexivity; lia.
    + remember (List.length
                  (filter (fun k0 => JS.strict_eq_str k0 "like") kinds)) as n.
      assert (E : match n with
                  | 0 => S (List.length kinds)
                  | S l => List.length kinds - l
                  end = S (List.length kinds - n)) by (destruct n; lia).
      rewrite E. simpl. repeat split; try reflexivity; lia.
Qed.

Lemma handleVotes_none (kinds : list JSValue) (s : State) :
  handleVotes None kinds s = s.
Proof.
  revert s. induction kinds as [|k kinds IH]; intro s; [reflexivity|].
  exact (IH s).
Qed.

(** X17.  Calls of [handleVote] that share a render all act on the item that
    render had on top: with an item [c] on top, every call appends [c]
    again, to the liked list for ["like"] and to the disliked list
    otherwise, and advances the pointer, so [n] calls add [n] copies of [c]
    and move the pointer by [n], past the end of the deck if need be; with
    no item on top none of them does anything.  Deck, loading flag and
    error are untouched. *)
Theorem votes_of_one_render_file_the_same_item
    (w : World) (kinds : list JSValue) :
  let s := st w in
  let s' := st (step w (Votes kinds)) in
  match current s with
  | Some c =>
      liked s' = liked s ++ repeat c (count_likes kinds) /\
      disliked s' =
        disliked s ++ repeat c (List.length kinds - count_likes kinds) /\
      idx s' = idx s + List.length kinds
  | None => step w (Votes kinds) = w
  end /\
  gifs s' = gifs s /\ loading s' = loading s /\ error s' = error s.
Proof.
  intros s s'. subst s s'. simpl.
  destruct (handleVotes_loading_error (current (st w)) kinds (st w))
    as [Hlo He].
  destruct (current (st w)) as [c|].
  - destruct (handleVotes_outcome c kinds (st w)) as (Hl & Hd & Hi & Hg).
    repeat split; assumption.
  - rewrite handleVotes_none in *. repeat split; auto. now destruct w.
Qed.


